(** * The incremental contact-collection pipeline of find_consultancy_contacts.py

    A shallow embedding of the key pool, the search cache, the two remote
    clients, the existing-output loader and the collector, with the
    properties of the pipeline stated and proved over it.

    Conventions of the embedding:
    - Python [str] values are [string]s (byte strings); [str.lower] and
      [str.strip] act on the ASCII range.
    - Python sets of strings are [gset string]; the set of exhausted key
      indices is a [gset nat].
    - The network is an oracle: the list of outcomes that the successive
      calls of [requests.request] / [requests.get] will have, consumed in
      order.  Every theorem that quantifies over it covers every behaviour
      of the remote services.
    - [print] calls produce no state and are left out; [time.sleep] and the
      HTTP requests are recorded in a trace of events.
    - The collector is modelled over caches whose set holds strings only
      ([SearchCache.t]); what the cache does when its file brought in
      members that are not strings is modelled apart
      ([SearchCache.untyped]). *)

From Stdlib Require Import String Ascii ZArith Lia.
From stdpp Require Import base decidable option list sets gmap strings pretty sorting.

Set Warnings "-register-all,-clear-no-such-hyp".

Local Open Scope string_scope.
Local Open Scope nat_scope.

(* ===================================================================== *)
(** ** Python values and strings                                          *)
(* ===================================================================== *)

(** A JSON field read with [d.get(k, "")]: the string found, or [None] when
    the key is present with the value null.  A missing key is the default
    [PStr ""]. *)
Inductive pyval :=
| PNone
| PStr (s : string).

#[global] Instance pyval_eq_dec : EqDecision pyval.
Proof. solve_decision. Defined.

(** Truthiness of a value: [None] and the empty string are false. *)
Definition truthy (v : pyval) : bool :=
  match v with
  | PNone => false
  | PStr s => negb (String.eqb s "")
  end.

(** [f"{v}"]: how a value is rendered inside an f-string. *)
Definition fmt (v : pyval) : string :=
  match v with
  | PNone => "None"
  | PStr s => s
  end.

(** [v or ""] *)
Definition or_empty (v : pyval) : pyval :=
  if truthy v then v else PStr "".

Definition lower_ascii (c : ascii) : ascii :=
  let n := nat_of_ascii c in
  if (65 <=? n) && (n <=? 90) then ascii_of_nat (n + 32) else c.

(** [s.lower()] *)
Fixpoint lower (s : string) : string :=
  match s with
  | EmptyString => EmptyString
  | String c r => String (lower_ascii c) (lower r)
  end.

(** The characters [str.strip()] removes: space, tab, newline, vertical
    tab, form feed, carriage return and the four separators 0x1c-0x1f. *)
Definition is_space (c : ascii) : bool :=
  let n := nat_of_ascii c in
  (n =? 32) || ((9 <=? n) && (n <=? 13)) || ((28 <=? n) && (n <=? 31)).

Fixpoint lstrip (s : string) : string :=
  match s with
  | EmptyString => EmptyString
  | String c r => if is_space c then lstrip r else s
  end.

Fixpoint rev_string_onto (s acc : string) : string :=
  match s with
  | EmptyString => acc
  | String c r => rev_string_onto r (String c acc)
  end.

Definition rev_string (s : string) : string := rev_string_onto s EmptyString.

(** [s.strip()] *)
Definition strip (s : string) : string :=
  rev_string (lstrip (rev_string (lstrip s))).

(** Truthiness of a plain string. *)
Definition nonempty (s : string) : bool := negb (String.eqb s "").

(* ===================================================================== *)
(** ** Key Pool                                                           *)
(* ===================================================================== *)

Module KeyPool.

(** The fields of the class [KeyPool]. *)
Record t := mk {
  service_name : string;
  keys : list string;
  exhausted : gset nat;
  _current_idx : nat
}.

(** [KeyPool.__init__]: [None] is the [ValueError] raised for an empty
    list of keys. *)
Definition init (name : string) (ks : list string) : option t :=
  match ks with
  | [] => None
  | _ => Some (mk name ks ∅ 0)
  end.

Definition total (p : t) : nat := length (keys p).

Definition active_count (p : t) : Z :=
  (Z.of_nat (total p) - Z.of_nat (size (exhausted p)))%Z.

Definition all_exhausted (p : t) : bool :=
  bool_decide (total p ≤ size (exhausted p)).

Definition set_idx (p : t) (i : nat) : t :=
  mk (service_name p) (keys p) (exhausted p) i.

Definition add_exhausted (p : t) (i : nat) : t :=
  mk (service_name p) (keys p) ({[ i ]} ∪ exhausted p) (_current_idx p).

(** The body of [_rotate], for the [n] iterations that are left of
    [for _ in range(self.total)]. *)
Fixpoint rotate_loop (n : nat) (p : t) : bool * t :=
  match n with
  | 0 => (false, p)
  | S n' =>
      let p' := set_idx p ((_current_idx p + 1) mod total p) in
      if decide (_current_idx p' ∈ exhausted p') then rotate_loop n' p'
      else (true, p')
  end.

Definition _rotate (p : t) : bool * t := rotate_loop (total p) p.

(** [self.keys[self._current_idx]]; the index is in range in every pool
    reached from [init] (lemma [wf_key_at]). *)
Definition key_at (p : t) : string := default "" (keys p !! _current_idx p).

(** The property [current_key]; reading it may rotate the pool. *)
Definition current_key (p : t) : option string * t :=
  if decide (_current_idx p ∈ exhausted p) then
    let '(ok, p') := _rotate p in
    if ok then (Some (key_at p'), p') else (None, p')
  else (Some (key_at p), p).

Definition mark_exhausted (p : t) : bool * t :=
  let p1 := add_exhausted p (_current_idx p) in
  if all_exhausted p1 then (false, p1) else _rotate p1.

(** [n] successive calls of [mark_exhausted]. *)
Fixpoint mark_exhausted_times (n : nat) (p : t) : t :=
  match n with
  | 0 => p
  | S n' => mark_exhausted_times n' (snd (mark_exhausted p))
  end.

(** Well-formed pools: what [init] establishes and every method keeps. *)
Definition wf (p : t) : Prop :=
  _current_idx p < total p ∧ ∀ i, i ∈ exhausted p → i < total p.

End KeyPool.

(* ===================================================================== *)
(** ** Search Cache                                                       *)
(* ===================================================================== *)

(** Parsed JSON, as [json.load] returns it; an object is the list of its
    items. *)
Inductive json :=
| JNull
| JBool (b : bool)
| JNum (z : Z)
| JStr (s : string)
| JArr (l : list json)
| JObj (kv : list (string * json)).

(** The exceptions that can leave [SearchCache.__init__]. *)
Inductive pyexn :=
| AttributeError
| TypeError.

(** The content of the file at [cache_path], when it exists: text that
    [json.load] rejects with [JSONDecodeError] (an empty file is such a
    text), or the value it parses to (what [json.dump] writes is read back
    as the value dumped). *)
Inductive file :=
| Garbage
| Json (j : json).

(** [d.get(k)] on a parsed object, [None] when the key is absent. *)
Fixpoint dict_get (k : string) (kv : list (string * json)) : option json :=
  match kv with
  | [] => None
  | (k', v) :: r => if String.eqb k k' then Some v else dict_get k r
  end.

(** What [set(v)] evaluates to. *)
Inductive set_outcome :=
| SetOf (s : gset string)   (* a set of strings *)
| SetUntyped (s : gset string) (others : list json)
                            (* the strings [s] and the members [others],
                               which are null, booleans or numbers *)
| SetRaises (e : pyexn).

Definition is_unhashable (j : json) : bool :=
  match j with
  | JArr _ | JObj _ => true
  | _ => false
  end.

Definition json_str (j : json) : option string :=
  match j with
  | JStr s => Some s
  | _ => None
  end.

Fixpoint chars (s : string) : list string :=
  match s with
  | EmptyString => []
  | String c r => String c EmptyString :: chars r
  end.

(** [set(v)]: lists are hashed member by member (lists and objects are
    unhashable), a string yields its characters, an object its keys; null,
    booleans and numbers are not iterable. *)
Definition py_set (v : json) : set_outcome :=
  match v with
  | JArr l =>
      if existsb is_unhashable l then SetRaises TypeError
      else match mapM json_str l with
           | Some ss => SetOf (list_to_set ss)
           | None =>
               SetUntyped (list_to_set (omap json_str l))
                 (filter (λ j, json_str j = None) l)
           end
  | JStr s => SetOf (list_to_set (chars s))
  | JObj kv => SetOf (list_to_set (fst <$> kv))
  | JNull | JBool _ | JNum _ => SetRaises TypeError
  end.

Module SearchCache.

(** The object ([_completed]) together with the content of the file at
    its [cache_path] ([None]: the file does not exist). *)
Record t := mk {
  _completed : gset string;
  storage : option file
}.

(** An object whose [_completed] holds, beside the strings [u_completed],
    the members [u_others] that are not strings: null, booleans, numbers. *)
Record untyped := mk_untyped {
  u_completed : gset string;
  u_others : list json;
  u_storage : option file
}.

(** What the constructor does. *)
Inductive outcome :=
| Constructed (c : t)
| ConstructedUntyped (u : untyped)   (* returns, [_completed] has non-string members *)
| Raised (e : pyexn).

(** [sorted(self._completed)] *)
Definition sorted (s : gset string) : list string :=
  merge_sort String.le (elements s).

(** The object that [save] dumps. *)
Definition dumped (s : gset string) : json :=
  JObj [("completed_searches", JArr (JStr <$> sorted s))].

(** [__init__] followed by [_load]: only [JSONDecodeError] and [KeyError]
    are caught. *)
Definition init (disk : option file) : outcome :=
  match disk with
  | None => Constructed (mk ∅ disk)
  | Some Garbage => Constructed (mk ∅ disk)
  | Some (Json (JObj kv)) =>
      match py_set (default (JArr []) (dict_get "completed_searches" kv)) with
      | SetOf s => Constructed (mk s disk)
      | SetUntyped s others => ConstructedUntyped (mk_untyped s others disk)
      | SetRaises e => Raised e
      end
  | Some (Json _) => Raised AttributeError
  end.

Definition save (c : t) : t :=
  mk (_completed c) (Some (Json (dumped (_completed c)))).

Definition is_done (c : t) (key : string) : bool :=
  bool_decide (key ∈ _completed c).

Definition mark_done (c : t) (key : string) : t :=
  save (mk ({[ key ]} ∪ _completed c) (storage c)).


Definition count (c : t) : nat := size (_completed c).


(** [is_done] on an object with members that are not strings. *)
Definition is_done_untyped (u : untyped) (key : string) : bool :=
  bool_decide (key ∈ u_completed u).

(** How [mark_done] ends on such an object. *)
Inductive marked :=
| Marked (c : t)
| MarkRaised (e : pyexn) (u : untyped).

(** [mark_done] on such an object: the key is added; [save] opens the file
    for writing, which empties it; then [sorted] compares the key, a
    string, with a member that is not a string and raises [TypeError], so
    nothing is dumped. *)
Definition mark_done_untyped (u : untyped) (key : string) : marked :=
  match u_others u with
  | [] => Marked (mark_done (mk (u_completed u) (u_storage u)) key)
  | _ :: _ =>
      MarkRaised TypeError
        (mk_untyped ({[ key ]} ∪ u_completed u) (u_others u) (Some Garbage))
  end.

End SearchCache.

(* ===================================================================== *)
(** ** The remote services                                                *)
(* ===================================================================== *)

(** A person of an Apollo search result, by the fields the collector reads. *)
Record person := mk_person {
  p_first_name : pyval;
  p_last_name : pyval;
  p_title : pyval;
  p_linkedin_url : pyval;
  p_email : pyval
}.

(** The non-empty ["person"] object of an Apollo enrichment result. *)
Record person_data := mk_person_data {
  pd_email : pyval;
  pd_linkedin_url : pyval
}.

(** An entry of [data.emails] in a Hunter domain search result. *)
Record hunter_entry := mk_hunter_entry {
  h_value : pyval;
  h_first_name : pyval;
  h_last_name : pyval;
  h_position : pyval;
  h_linkedin : pyval;
  h_phone_number : pyval;
  h_confidence : Z
}.

(** A response body as the collector reads it:
    [body.get("people", [])], [body.get("person", {})] ([None] when it is
    missing or empty) and [body.get("data", {}).get("emails", [])]. *)
Record body := mk_body {
  people : list person;
  person_of : option person_data;
  emails : list hunter_entry
}.

(** The empty result [{}]. *)
Definition empty_body : body := mk_body [] None [].

(** What one call of [requests.request] / [requests.get] comes to: a
    response with its status code and the value [resp.json()] has, or a
    [RequestException] (the network failed, or the body of a response that
    is read does not parse). *)
Inductive http_outcome :=
| Response (status : Z) (b : body)
| RequestError.

(** The logical requests the clients issue. *)
Inductive request :=
| ApolloSearch (titles locations : list string) (org_domain : string) (per_page : nat)
| ApolloEnrich (first_name last_name : pyval) (domain : string)
| HunterDomainSearch (domain department : string) (seniority : option string) (limit : nat).

Inductive event :=
| EvHttp (r : request) (key : option string)   (* a request, with the credential attached *)
| EvSleep (seconds : nat).                     (* [time.sleep] *)

(** The world outside the process: the outcomes still to come, and what has
    happened so far (oldest first). *)
Record world := mk_world {
  net : list http_outcome;
  trace : list event
}.

(** One HTTP call: the next outcome of the oracle; once the oracle is used
    up every further call fails at the network level. *)
Definition http (r : request) (key : option string) (w : world) : http_outcome * world :=
  match net w with
  | [] => (RequestError, mk_world [] (trace w ++ [EvHttp r key])%list)
  | o :: rest => (o, mk_world rest (trace w ++ [EvHttp r key])%list)
  end.

Definition sleep (seconds : nat) (w : world) : world :=
  mk_world (net w) (trace w ++ [EvSleep seconds])%list.

(** [RATE_LIMIT_DELAY], in seconds. *)
Definition RATE_LIMIT_DELAY : nat := 1.

(** [EXHAUSTION_CODES], the same set in both clients. *)
Definition EXHAUSTION_CODES : list Z := [429; 403]%Z.

Definition is_exhaustion_code (status : Z) : bool :=
  bool_decide (status ∈ EXHAUSTION_CODES).

(** [resp.raise_for_status()] raises [HTTPError] exactly for the client and
    server error codes, 400 to 599. *)
Definition raises_for_status (status : Z) : bool :=
  ((400 <=? status) && (status <? 600))%Z.

(** The number of HTTP requests in a stretch of the trace. *)
Definition is_http (e : event) : bool :=
  match e with
  | EvHttp _ _ => true
  | EvSleep _ => false
  end.

Definition http_count (t : list event) : nat := length (filter (λ e, is_http e = true) t).

(** The result of one pass of a failover loop. *)
Definition reply : Type := body * KeyPool.t * world.

(** What a run of the loop comes to, whatever fuel above the number of
    keys still active it is given. *)
Definition loop_result (r : request) (p : KeyPool.t) (w : world) (res : reply) : Prop :=
  let '(b, p', w') := res in
  KeyPool.keys p' = KeyPool.keys p
  ∧ KeyPool.exhausted p ⊆ KeyPool.exhausted p'
  ∧ suffix (net w') (net w)
  ∧ (b = empty_body ∨ ∃ status, Response status b ∈ net w)
  ∧ ∃ t, trace w' = (trace w ++ t)%list
         ∧ Forall (λ e, e = EvSleep 1 ∨ ∃ k, e = EvHttp r (Some k)) t
         ∧ http_count t ≤ KeyPool.total p - size (KeyPool.exhausted p)
         ∧ size (KeyPool.exhausted p) + http_count t ≤ S (size (KeyPool.exhausted p')).

Module ApolloClient.

(** [_request_with_failover]; each unit of [fuel] pays for one test of
    the [while] condition, [None] means the fuel ran out. *)
Fixpoint failover_loop (fuel : nat) (r : request) (p : KeyPool.t) (w : world)
  : option reply :=
  match fuel with
  | 0 => None
  | S fuel' =>
      if KeyPool.all_exhausted p then Some (empty_body, p, w)
      else
        let '(key, p1) := KeyPool.current_key p in
        match key with
        | None => Some (empty_body, p1, w)
        | Some _ =>
            (* [self._headers()] reads [current_key] once more *)
            let '(hkey, p2) := KeyPool.current_key p1 in
            let '(out, w1) := http r hkey w in
            match out with
            | RequestError => Some (empty_body, p2, w1)
            | Response status b =>
                if is_exhaustion_code status then
                  let '(ok, p3) := KeyPool.mark_exhausted p2 in
                  if ok then failover_loop fuel' r p3 (sleep 1 w1)
                  else Some (empty_body, p3, w1)
                else if (status =? 401)%Z then
                  let '(ok, p3) := KeyPool.mark_exhausted p2 in
                  if ok then failover_loop fuel' r p3 w1
                  else Some (empty_body, p3, w1)
                else if raises_for_status status then Some (empty_body, p2, w1)
                else Some (b, p2, w1)
            end
        end
  end.

(** The loop with one unit of fuel more than the pool has keys, which is
    always enough (lemma [apollo_fuel_enough]). *)
Definition _request_with_failover (r : request) (p : KeyPool.t) (w : world) : reply :=
  default (empty_body, p, w) (failover_loop (S (KeyPool.total p)) r p w).

Definition search_people (titles locations : list string) (org_domain : string)
    (per_page : nat) : KeyPool.t → world → reply :=
  _request_with_failover (ApolloSearch titles locations org_domain per_page).

Definition enrich_person (first_name last_name : pyval) (domain : string)
  : KeyPool.t → world → reply :=
  _request_with_failover (ApolloEnrich first_name last_name domain).

End ApolloClient.

Module HunterClient.

(** [_request_with_failover]; the key read at the top of the pass is the
    one attached as [api_key]. *)
Fixpoint failover_loop (fuel : nat) (r : request) (p : KeyPool.t) (w : world)
  : option reply :=
  match fuel with
  | 0 => None
  | S fuel' =>
      if KeyPool.all_exhausted p then Some (empty_body, p, w)
      else
        let '(key, p1) := KeyPool.current_key p in
        match key with
        | None => Some (empty_body, p1, w)
        | Some k =>
            let '(out, w1) := http r (Some k) w in
            match out with
            | RequestError => Some (empty_body, p1, w1)
            | Response status b =>
                if is_exhaustion_code status then
                  let '(ok, p2) := KeyPool.mark_exhausted p1 in
                  if ok then failover_loop fuel' r p2 (sleep 1 w1)
                  else Some (empty_body, p2, w1)
                else if (status =? 401)%Z then
                  let '(ok, p2) := KeyPool.mark_exhausted p1 in
                  if ok then failover_loop fuel' r p2 w1
                  else Some (empty_body, p2, w1)
                else if raises_for_status status then Some (empty_body, p1, w1)
                else Some (b, p1, w1)
            end
        end
  end.

Definition _request_with_failover (r : request) (p : KeyPool.t) (w : world) : reply :=
  default (empty_body, p, w) (failover_loop (S (KeyPool.total p)) r p w).

Definition domain_search (domain department : string) (seniority : option string)
    (limit : nat) : KeyPool.t → world → reply :=
  _request_with_failover (HunterDomainSearch domain department seniority limit).

Definition domain_search_recruiting (domain : string) (limit : nat)
  : KeyPool.t → world → reply :=
  _request_with_failover (HunterDomainSearch domain "hr" None limit).

End HunterClient.

(* ===================================================================== *)
(** ** Configuration                                                      *)
(* ===================================================================== *)

Record firm := mk_firm {
  name : string;
  domain : string;
  careers_url : string
}.

Definition CONSULTANCIES : list firm := [
  mk_firm "Accenture" "accenture.com" "https://www.accenture.com/us-en/careers";
  mk_firm "Deloitte" "deloitte.com" "https://www2.deloitte.com/us/en/careers.html";
  mk_firm "McKinsey & Company" "mckinsey.com" "https://www.mckinsey.com/careers";
  mk_firm "Slalom Consulting" "slalom.com" "https://www.slalom.com/us/en/careers";
  mk_firm "Cognizant" "cognizant.com" "https://careers.cognizant.com";
  mk_firm "Capgemini" "capgemini.com" "https://www.capgemini.com/careers/";
  mk_firm "Infosys" "infosys.com" "https://www.infosys.com/careers/";
  mk_firm "KPMG" "kpmg.com" "https://kpmg.com/us/en/careers.html";
  mk_firm "EY (Ernst & Young)" "ey.com" "https://www.ey.com/en_us/careers";
  mk_firm "Wipro" "wipro.com" "https://careers.wipro.com/";
  mk_firm "TCS (Tata Consultancy Services)" "tcs.com" "https://www.tcs.com/careers";
  mk_firm "PwC" "pwc.com" "https://www.pwc.com/us/en/careers.html";
  mk_firm "Booz Allen Hamilton" "bah.com" "https://www.boozallen.com/careers.html";
  mk_firm "HCL Technologies" "hcltech.com" "https://www.hcltech.com/careers";
  mk_firm "West Monroe" "westmonroe.com" "https://www.westmonroe.com/careers";
  mk_firm "IBM Consulting" "ibm.com" "https://www.ibm.com/careers";
  mk_firm "Thoughtworks" "thoughtworks.com" "https://www.thoughtworks.com/careers";
  mk_firm "NTT DATA" "nttdata.com" "https://www.nttdata.com/global/en/careers";
  mk_firm "CGI Group" "cgi.com" "https://www.cgi.com/en/careers";
  mk_firm "Tech Mahindra" "techmahindra.com" "https://careers.techmahindra.com/"
].

Definition APOLLO_TITLES : list string := [
  "IT Recruiter"; "Technology Recruiter"; "Technical Recruiter";
  "Talent Acquisition"; "Recruiting Manager"; "Hiring Manager IT";
  "Technology Hiring Manager"; "Head of Recruiting";
  "Director of Talent Acquisition"; "University Recruiter";
  "Campus Recruiter Technology"
].

Definition APOLLO_LOCATIONS : list string := [
  "San Francisco, California, United States";
  "San Jose, California, United States";
  "Palo Alto, California, United States";
  "Mountain View, California, United States";
  "Oakland, California, United States";
  "Bay Area"
].

(** [collect_keys_from_env]; [env] is [os.environ]. *)
Definition env_get (env : gmap string string) (k : string) : string :=
  default "" (env !! k).

(** The name [f"{prefix}_{i}"]. *)
Definition numbered (prefix : string) (i : nat) : string :=
  prefix +:+ "_" +:+ pretty i.

(** [if val and val not in keys: keys.append(val)] *)
Definition add_key (keys : list string) (val : string) : list string :=
  if nonempty val && negb (bool_decide (val ∈ keys)) then (keys ++ [val])%list else keys.

Definition collect_keys_from_env (prefix : string) (env : gmap string string) : list string :=
  let keys :=
    foldl (λ keys i, add_key keys (strip (env_get env (numbered prefix i)))) [] (seq 1 20) in
  add_key keys (strip (env_get env prefix)).

(** The twenty-one values the function can draw from: the stripped entries
    [PREFIX_1] to [PREFIX_20] in numeric order, then the bare [PREFIX]. *)
Definition candidates (prefix : string) (env : gmap string string) : list string :=
  ((λ k, strip (env_get env k)) <$> ((numbered prefix <$> seq 1 20) ++ [prefix]))%list.

(* ===================================================================== *)
(** ** Contacts and the existing-output loader                            *)
(* ===================================================================== *)

(** A contact dict, by its nine keys. *)
Record Contact := mk_contact {
  consultancy : string;
  first_name : pyval;
  last_name : pyval;
  email : pyval;
  job_title : pyval;
  linkedin_url : pyval;
  phone : pyval;
  source : string;
  notes : string
}.

#[global] Instance Contact_eq_dec : EqDecision Contact.
Proof. solve_decision. Defined.

(** [f"{first}|{last}|{name}".lower()] *)
Definition name_key (first last : pyval) (org : string) : string :=
  lower (fmt first +:+ "|" +:+ fmt last +:+ "|" +:+ org).

(** What [openpyxl.load_workbook] finds at the path: no file, a file it
    cannot read, a workbook without the contacts sheet, or the rows of the
    sheet from the second row on, each a tuple of cell values. *)
Inductive workbook :=
| NoFile
| Unreadable
| NoSheet
| Sheet (rows : list (list pyval)).

(** [str(v or "").strip()] *)
Definition cell_str (v : pyval) : string := strip (fmt (or_empty v)).

Definition loaded : Type := list Contact * gset string * gset string.

(** One pass of the loop over the rows. *)
Definition load_row (acc : loaded) (row : list pyval) : loaded :=
  let '(contacts, seen, enriched) := acc in
  match row with
  | [] => acc
  | c0 :: _ =>
      if negb (truthy c0) then acc
      else
        let vals := (row ++ replicate 9 PNone)%list in
        let cell i := cell_str (nth i vals PNone) in
        let consultancy := cell 0 in
        let first_name := cell 1 in
        let last_name := cell 2 in
        let email := cell 3 in
        if negb (nonempty consultancy)
           || (negb (nonempty first_name) && negb (nonempty last_name)
               && negb (nonempty email))
        then acc
        else
          let contact :=
            mk_contact consultancy (PStr first_name) (PStr last_name) (PStr email)
              (PStr (cell 4)) (PStr (cell 5)) (PStr (cell 6)) (cell 7) (cell 8) in
          let key := name_key (PStr first_name) (PStr last_name) consultancy in
          let seen1 := {[ key ]} ∪ seen in
          if nonempty email
          then ((contacts ++ [contact])%list, {[ lower email ]} ∪ seen1, {[ key ]} ∪ enriched)
          else ((contacts ++ [contact])%list, seen1, enriched)
  end.


Definition load_existing_contacts (wb : workbook) : loaded :=
  match wb with
  | Sheet rows => foldl load_row ([], ∅, ∅) rows
  | _ => ([], ∅, ∅)
  end.

(* ===================================================================== *)
(** ** The collector                                                      *)
(* ===================================================================== *)

(** The run-scoped state [collect_contacts] mutates, with the world.  The
    counters [new_contacts], [skipped_searches] and [skipped_enrichments]
    only feed the final [print]s and are left out. *)
Record run := mk_run {
  contacts : list Contact;
  seen : gset string;
  enriched : gset string;
  cache : SearchCache.t;
  outside : world
}.

Definition set_outside (r : run) (w : world) : run :=
  mk_run (contacts r) (seen r) (enriched r) (cache r) w.

Definition pause (r : run) : run := set_outside r (sleep RATE_LIMIT_DELAY (outside r)).

Definition cache_mark_done (r : run) (key : string) : run :=
  mk_run (contacts r) (seen r) (enriched r) (SearchCache.mark_done (cache r) key) (outside r).

(** The body of [for person in people], the same in the narrow and in the
    broad Apollo search. *)
Definition apollo_person (enrich_apollo : bool) (f : firm) (st : run * KeyPool.t)
    (x : person) : run * KeyPool.t :=
  let '(r, p) := st in
  let first := p_first_name x in
  let last := p_last_name x in
  let key := name_key first last (name f) in
  if bool_decide (key ∈ seen r) then st
  else
    let seen1 := {[ key ]} ∪ seen r in
    let '(email, linkedin, enriched1, p1, w1) :=
      if enrich_apollo && negb (truthy (p_email x)) && truthy first && truthy last
         && negb (KeyPool.all_exhausted p)
      then
        if bool_decide (key ∈ enriched r)
        then (p_email x, p_linkedin_url x, enriched r, p, outside r)
        else
          let '(b, p1, w1) := ApolloClient.enrich_person first last (domain f) p (outside r) in
          let w2 := sleep RATE_LIMIT_DELAY w1 in
          match person_of b with
          | Some pd =>
              (pd_email pd,
               if truthy (p_linkedin_url x) then p_linkedin_url x else pd_linkedin_url pd,
               if truthy (pd_email pd) then {[ key ]} ∪ enriched r else enriched r,
               p1, w2)
          | None => (p_email x, p_linkedin_url x, enriched r, p1, w2)
          end
      else (p_email x, p_linkedin_url x, enriched r, p, outside r) in
    let c := mk_contact (name f) first last (or_empty email) (p_title x)
               (or_empty linkedin) (PStr "") "Apollo.io" "" in
    (mk_run (contacts r ++ [c])%list seen1 enriched1 (cache r) w1, p1).

(** The narrow title search of one firm. *)
Definition apollo_titles (enrich_apollo : bool) (f : firm) (st : run * KeyPool.t)
  : run * KeyPool.t :=
  let '(r, p) := st in
  let cache_key_titles := "apollo_search|" +:+ domain f +:+ "|titles" in
  if SearchCache.is_done (cache r) cache_key_titles then st
  else
    let '(b, p1, w1) :=
      ApolloClient.search_people APOLLO_TITLES APOLLO_LOCATIONS (domain f) 10 p (outside r) in
    let '(r2, p2) := foldl (apollo_person enrich_apollo f) (set_outside r w1, p1) (people b) in
    let r3 :=
      if negb (KeyPool.all_exhausted p2) || negb (bool_decide (people b = []))
      then cache_mark_done r2 cache_key_titles else r2 in
    (pause r3, p2).

(** The broad search of one firm. *)
Definition apollo_broad (enrich_apollo : bool) (f : firm) (st : run * KeyPool.t)
  : run * KeyPool.t :=
  let '(r, p) := st in
  let cache_key_broad := "apollo_search|" +:+ domain f +:+ "|broad" in
  if SearchCache.is_done (cache r) cache_key_broad then st
  else if negb (KeyPool.all_exhausted p) then
    let '(b, p1, w1) :=
      ApolloClient.search_people ["Talent Acquisition"; "Recruiter"; "Staffing"]
        APOLLO_LOCATIONS (domain f) 5 p (outside r) in
    let '(r2, p2) := foldl (apollo_person enrich_apollo f) (set_outside r w1, p1) (people b) in
    let r3 :=
      if negb (KeyPool.all_exhausted p2)
      then cache_mark_done r2 cache_key_broad else r2 in
    (pause r3, p2)
  else st.

(** The Apollo part of one firm; [apollo] is the pool of the client, if
    there is one. *)
Definition apollo_firm (enrich_apollo : bool) (f : firm) (r : run)
    (apollo : option KeyPool.t) : run * option KeyPool.t :=
  match apollo with
  | Some p =>
      if negb (KeyPool.all_exhausted p) then
        let '(r2, p2) := apollo_broad enrich_apollo f (apollo_titles enrich_apollo f (r, p)) in
        (r2, Some p2)
      else (r, apollo)
  | None => (r, None)
  end.

(** The contact dict appended for a Hunter entry. *)
Definition hunter_contact (f : firm) (dept_label : string) (e : hunter_entry) : Contact :=
  let notes0 := "Confidence: " +:+ pretty (h_confidence e) +:+ "%" in
  let notes := if nonempty dept_label then notes0 +:+ "; Dept: " +:+ dept_label else notes0 in
  mk_contact (name f) (or_empty (h_first_name e)) (or_empty (h_last_name e)) (h_value e)
    (or_empty (h_position e)) (or_empty (h_linkedin e))
    (or_empty (h_phone_number e)) "Hunter.io" notes.

(** The body of the loop of [process_hunter_emails]. *)
Definition hunter_entry_step (f : firm) (dept_label : string) (r : run)
    (e : hunter_entry) : run :=
  let email := h_value e in
  let first := h_first_name e in
  let last := h_last_name e in
  let dedup_key_email := if truthy email then lower (fmt email) else "" in
  let key := name_key first last (name f) in
  if bool_decide (dedup_key_email ∈ seen r) || bool_decide (key ∈ seen r) then r
  else
    let seen1 := if nonempty dedup_key_email then {[ dedup_key_email ]} ∪ seen r else seen r in
    let seen2 := {[ key ]} ∪ seen1 in
    let enriched1 := if truthy email then {[ key ]} ∪ enriched r else enriched r in
    mk_run (contacts r ++ [hunter_contact f dept_label e])%list seen2 enriched1 (cache r)
      (outside r).

Definition process_hunter_emails (f : firm) (emails_list : list hunter_entry)
    (dept_label : string) (r : run) : run :=
  foldl (hunter_entry_step f dept_label) r emails_list.

(** What follows a Hunter search: merge the entries, mark the search done
    if the pool is not exhausted or something came back, pause. *)
Definition hunter_merge (f : firm) (dept_label cache_key : string) (r : run)
    (rep : reply) : run * KeyPool.t :=
  let '(b, p1, w1) := rep in
  let r2 := process_hunter_emails f (emails b) dept_label (set_outside r w1) in
  let r3 :=
    if negb (KeyPool.all_exhausted p1) || negb (bool_decide (emails b = []))
    then cache_mark_done r2 cache_key else r2 in
  (pause r3, p1).

Definition hunter_it (f : firm) (st : run * KeyPool.t) : run * KeyPool.t :=
  let '(r, p) := st in
  let cache_key_it := "hunter|" +:+ domain f +:+ "|it" in
  if SearchCache.is_done (cache r) cache_key_it then st
  else hunter_merge f "IT" cache_key_it r
         (HunterClient.domain_search (domain f) "it" None 10 p (outside r)).

Definition hunter_hr (f : firm) (st : run * KeyPool.t) : run * KeyPool.t :=
  let '(r, p) := st in
  let cache_key_hr := "hunter|" +:+ domain f +:+ "|hr" in
  if SearchCache.is_done (cache r) cache_key_hr then st
  else if negb (KeyPool.all_exhausted p) then
    hunter_merge f "HR/Recruiting" cache_key_hr r
      (HunterClient.domain_search_recruiting (domain f) 10 p (outside r))
  else st.

Definition hunter_mgmt (f : firm) (st : run * KeyPool.t) : run * KeyPool.t :=
  let '(r, p) := st in
  let cache_key_mgmt := "hunter|" +:+ domain f +:+ "|management" in
  if SearchCache.is_done (cache r) cache_key_mgmt then st
  else if negb (KeyPool.all_exhausted p) then
    hunter_merge f "Management" cache_key_mgmt r
      (HunterClient.domain_search (domain f) "management" (Some "senior,executive") 5
         p (outside r))
  else st.

(** The Hunter part of one firm. *)
Definition hunter_firm (hunter_it_only : bool) (f : firm) (r : run)
    (hunter : option KeyPool.t) : run * option KeyPool.t :=
  match hunter with
  | Some p =>
      if negb (KeyPool.all_exhausted p) then
        let st1 := hunter_it f (r, p) in
        let st2 := if negb hunter_it_only then hunter_hr f st1 else st1 in
        let '(r3, p3) := if negb hunter_it_only then hunter_mgmt f st2 else st2 in
        (r3, Some p3)
      else (r, hunter)
  | None => (r, None)
  end.

(** Everything [collect_contacts] leaves behind: the run and the two pools. *)
Record collected := mk_collected {
  final : run;
  apollo_pool : option KeyPool.t;
  hunter_pool : option KeyPool.t
}.

(** The body of [for firm in CONSULTANCIES]. *)
Definition firm_step (enrich_apollo hunter_it_only : bool) (st : collected) (f : firm)
  : collected :=
  let '(r1, a1) := apollo_firm enrich_apollo f (final st) (apollo_pool st) in
  let '(r2, h2) := hunter_firm hunter_it_only f r1 (hunter_pool st) in
  mk_collected r2 a1 h2.

(** [collect_contacts] over the firms [firms] (the source iterates over the
    global [CONSULTANCIES]), started in the world [w]. *)
Definition collect (firms : list firm) (apollo_pool hunter_pool : option KeyPool.t)
    (enrich_apollo : bool) (existing_contacts : list Contact) (seen enriched : gset string)
    (cache : SearchCache.t) (hunter_it_only : bool) (w : world) : collected :=
  foldl (firm_step enrich_apollo hunter_it_only)
    (mk_collected (mk_run existing_contacts seen enriched cache w) apollo_pool hunter_pool)
    firms.

(** The list [collect_contacts] returns. *)
Definition collect_contacts (firms : list firm) (apollo_pool hunter_pool : option KeyPool.t)
    (enrich_apollo : bool) (existing_contacts : list Contact) (seen enriched : gset string)
    (cache : SearchCache.t) (hunter_it_only : bool) (w : world) : list Contact :=
  contacts (final (collect firms apollo_pool hunter_pool enrich_apollo existing_contacts
                     seen enriched cache hunter_it_only w)).

(* ===================================================================== *)
(** ** Dedup keys and the merge relation                                  *)
(* ===================================================================== *)

(** The name-key of a contact, from its own fields. *)
Definition contact_key (c : Contact) : string :=
  name_key (first_name c) (last_name c) (consultancy c).

(** The lower-cased email of a contact, [""] when it has none. *)
Definition email_key (c : Contact) : string :=
  if truthy (email c) then lower (fmt (email c)) else "".

(** Contacts appended from Hunter that carry an email. *)
Definition hunter_with_email (c : Contact) : Prop :=
  source c = "Hunter.io" ∧ truthy (email c) = true.

#[global] Instance hunter_with_email_dec c : Decision (hunter_with_email c).
Proof. unfold hunter_with_email. apply _. Defined.

(** Hunter entries whose first and last name are strings, not null. *)
Definition named_entry (e : hunter_entry) : Prop :=
  h_first_name e ≠ PNone ∧ h_last_name e ≠ PNone.

(** An oracle all of whose Hunter entries satisfy [ok]. *)
Definition net_ok (ok : hunter_entry → Prop) (l : list http_outcome) : Prop :=
  Forall (λ o, match o with
               | Response _ b => Forall ok (emails b)
               | RequestError => True
               end) l.

Definition named_net (l : list http_outcome) : Prop := net_ok named_entry l.

(** All the contacts of [new] come from one of the two services. *)
Definition from_services (new : list Contact) : Prop :=
  Forall (λ c, source c = "Apollo.io" ∨ source c = "Hunter.io") new.

(** The contacts [new] were appended while [seen] grew from [seen0] to
    [seen1]: their name-keys are pairwise distinct, registered, and were
    not there before; so are the emails of those that came from Hunter. *)
Definition fresh_contacts (seen0 seen1 : gset string) (new : list Contact) : Prop :=
  NoDup (contact_key <$> new)
  ∧ (∀ c, c ∈ new → contact_key c ∈ seen1 ∧ contact_key c ∉ seen0)
  ∧ NoDup (email_key <$> filter hunter_with_email new)
  ∧ (∀ c, c ∈ new → hunter_with_email c → email_key c ∈ seen1 ∧ email_key c ∉ seen0).

(** The half of [fresh_contacts] that speaks of the emails of the contacts
    that came from Hunter. *)
Definition fresh_emails (seen0 seen1 : gset string) (new : list Contact) : Prop :=
  NoDup (email_key <$> filter hunter_with_email new)
  ∧ (∀ c, c ∈ new → hunter_with_email c → email_key c ∈ seen1 ∧ email_key c ∉ seen0).

(** Every enrichment request in [t] is for a person of one of the firms
    whose name-key was not in [enriched0]. *)
Definition enrich_calls_fresh (firms : list firm) (enriched0 : gset string)
    (t : list event) : Prop :=
  ∀ first last dom k, EvHttp (ApolloEnrich first last dom) k ∈ t →
    ∃ f, f ∈ firms ∧ domain f = dom ∧ name_key first last (name f) ∉ enriched0.

(** What any stretch of the collector does to the run: the two sets and
    the trace grow, the oracle is consumed, contacts are only appended; [Q]
    says what is known of the appended contacts, given [seen] before and
    after. *)
Definition extends (Q : gset string → gset string → list Contact → Prop)
    (firms : list firm) (s s' : run) : Prop :=
  seen s ⊆ seen s'
  ∧ enriched s ⊆ enriched s'
  ∧ suffix (net (outside s')) (net (outside s))
  ∧ (∃ new, contacts s' = (contacts s ++ new)%list ∧ Q (seen s) (seen s') new)
  ∧ (∃ t, trace (outside s') = (trace (outside s) ++ t)%list
          ∧ enrich_calls_fresh firms (enriched s) t).

(* ===================================================================== *)
(** ** Concrete runs                                                      *)
(* ===================================================================== *)

(** A pool with a single Apollo key, and an empty cache with no file. *)
Definition one_key_pool : KeyPool.t := KeyPool.mk "Apollo" ["K1"] ∅ 0.

Definition no_cache : SearchCache.t := SearchCache.mk ∅ None.

Definition accenture : firm :=
  mk_firm "Accenture" "accenture.com" "https://www.accenture.com/us-en/careers".

(** A person Apollo returns without an email. *)
Definition jane : person :=
  mk_person (PStr "Jane") (PStr "Doe") (PStr "Recruiter") (PStr "") (PStr "").

(** Two people Apollo returns with one shared mailbox. *)
Definition ann : person :=
  mk_person (PStr "Ann") (PStr "Lee") (PStr "IT Recruiter") (PStr "")
    (PStr "talent@accenture.com").

Definition bob : person :=
  mk_person (PStr "Bob") (PStr "Ray") (PStr "Technical Recruiter") (PStr "")
    (PStr "Talent@accenture.com").





(** A Hunter entry. *)
Definition carol : hunter_entry :=
  mk_hunter_entry (PStr "carol.diaz@accenture.com") (PStr "Carol") (PStr "Diaz")
    (PStr "Recruiter") PNone PNone 92.

(** The search answers with Jane; the enrichment request that follows is
    answered with 429, which exhausts the only key. *)
Definition jane_then_429 : world :=
  mk_world [Response 200 (mk_body [jane] None []); Response 429 empty_body] [].

(* ===================================================================== *)
(** * Properties                                                          *)
(* ===================================================================== *)

Lemma nonempty_true s : nonempty s = true ↔ s ≠ "".
Proof.
  unfold nonempty. rewrite negb_true_iff.
  destruct (String.eqb_spec s ""); split; congruence.
Qed.

Lemma or_empty_str s : or_empty (PStr s) = PStr s.
Proof.
  unfold or_empty, truthy. destruct (String.eqb_spec s ""); simpl; congruence.
Qed.

(* ===================================================================== *)
(** ** Key Pool: rotation and exhaustion                                  *)
(* ===================================================================== *)

Section KeyPoolFacts.
Import KeyPool.

Lemma rotate_loop_spec n p :
  keys (rotate_loop n p).2 = keys p
  ∧ exhausted (rotate_loop n p).2 = exhausted p
  ∧ service_name (rotate_loop n p).2 = service_name p
  ∧ (0 < total p → _current_idx p < total p → _current_idx (rotate_loop n p).2 < total p)
  ∧ ((rotate_loop n p).1 = true → _current_idx (rotate_loop n p).2 ∉ exhausted p)
  ∧ ((rotate_loop n p).1 = false →
       ∀ i, 1 ≤ i ≤ n → (_current_idx p + i) mod total p ∈ exhausted p).
Proof.
  revert p. induction n as [|n IH]; intros p; simpl.
  { split_and!; try done. intros _ i Hi. lia. }
  case_decide as Hin; simpl in *.
  - set (p1 := set_idx p ((_current_idx p + 1) mod total p)) in *.
    destruct (IH p1) as (Hk & He & Hs & Hi & Ht & Hf).
    change (total p1) with (total p) in *.
    change (exhausted p1) with (exhausted p) in *.
    change (keys p1) with (keys p) in *.
    change (service_name p1) with (service_name p) in *.
    split_and!; try done.
    + intros Hpos Hlt. apply Hi; [done|]. simpl. apply Nat.mod_upper_bound. lia.
    + intros Hb i Hrange.
      destruct (decide (i = 1)) as [->|Hne]; [exact Hin|].
      specialize (Hf Hb (i - 1)). simpl in Hf.
      rewrite Nat.Div0.add_mod_idemp_l in Hf.
      replace (_current_idx p + 1 + (i - 1)) with (_current_idx p + i) in Hf by lia.
      apply Hf. lia.
  - split_and!; try done.
    intros Hpos _. apply Nat.mod_upper_bound. lia.
Qed.

(** Rotation visits every index. *)
Lemma rotation_reaches (N c j : nat) :
  c < N → j < N → ∃ i, 1 ≤ i ≤ N ∧ (c + i) mod N = j.
Proof.
  intros Hc Hj.
  destruct (decide (c < j)) as [Hlt|Hge].
  - exists (j - c). split; [lia|].
    replace (c + (j - c)) with j by lia. by apply Nat.mod_small.
  - exists (N + j - c). split; [lia|].
    replace (c + (N + j - c)) with (j + 1 * N) by lia.
    rewrite Nat.Div0.mod_add. by apply Nat.mod_small.
Qed.

Lemma free_index p :
  (∀ i, i ∈ exhausted p → i < total p) → size (exhausted p) < total p →
  ∃ j, j < total p ∧ j ∉ exhausted p.
Proof.
  intros Hb Hsz.
  destruct (decide (Forall (λ j, j ∈ exhausted p) (seq 0 (total p)))) as [Hall|Hex].
  - assert (set_seq (C:=gset nat) 0 (total p) ⊆ exhausted p) as Hsub.
    { intros j Hj. apply elem_of_set_seq in Hj.
      rewrite Forall_forall in Hall. apply Hall, elem_of_seq. lia. }
    apply subseteq_size in Hsub. rewrite size_set_seq in Hsub. lia.
  - apply not_Forall_Exists in Hex; [|apply _].
    apply Exists_exists in Hex as (j & Hj & Hnj).
    exists j. split; [|done]. apply elem_of_seq in Hj. lia.
Qed.

Lemma rotate_finds p :
  wf p → size (exhausted p) < total p →
  fst (_rotate p) = true ∧ wf (snd (_rotate p))
  ∧ (_current_idx (snd (_rotate p)) ∉ exhausted (snd (_rotate p)))
  ∧ exhausted (snd (_rotate p)) = exhausted p ∧ keys (snd (_rotate p)) = keys p.
Proof.
  intros [Hidx Hb] Hsz. unfold _rotate.
  destruct (rotate_loop_spec (total p) p) as (Hk & He & Hs & Hi & Ht & Hf).
  destruct (free_index p Hb Hsz) as (j & Hj & Hnj).
  assert (fst (rotate_loop (total p) p) = true) as Hok.
  { destruct (fst (rotate_loop (total p) p)) eqn:E; [done|].
    destruct (rotation_reaches (total p) (_current_idx p) j Hidx Hj) as (i & Hi1 & Hi2).
    exfalso. apply Hnj. rewrite <- Hi2. by apply Hf. }
  unfold wf, total in *. rewrite He, Hk. split_and!; try done.
  - apply Hi; lia.
  - by apply Ht.
Qed.

Lemma rotate_fails p :
  wf p → (∀ j, j < total p → j ∈ exhausted p) → fst (_rotate p) = false.
Proof.
  intros [Hidx Hb] Hall. unfold _rotate.
  destruct (rotate_loop_spec (total p) p) as (Hk & He & Hs & Hi & Ht & Hf).
  destruct (fst (rotate_loop (total p) p)) eqn:E; [|done].
  exfalso. apply Ht; [done|]. apply Hall, Hi; lia.
Qed.

Lemma all_exhausted_true p : all_exhausted p = true ↔ total p ≤ size (exhausted p).
Proof. unfold all_exhausted. by rewrite bool_decide_eq_true. Qed.

Lemma all_exhausted_false p : all_exhausted p = false ↔ size (exhausted p) < total p.
Proof. unfold all_exhausted. rewrite bool_decide_eq_false. lia. Qed.

Lemma wf_init name ks p : init name ks = Some p → wf p ∧ exhausted p = ∅ ∧ keys p = ks.
Proof.
  destruct ks as [|k ks]; intros [= <-]; simpl.
  split_and!; try done. split; simpl; [unfold total; simpl; lia|set_solver].
Qed.

Lemma full_pool p :
  wf p → total p ≤ size (exhausted p) → ∀ j, j < total p → j ∈ exhausted p.
Proof.
  intros [_ Hb] Hsz j Hj.
  assert (exhausted p ≡ set_seq 0 (total p)) as Heq.
  { apply (set_subseteq_size_equiv (C:=gset nat)).
    - intros i Hi. apply elem_of_set_seq. specialize (Hb i Hi). lia.
    - by rewrite size_set_seq. }
  apply Heq, elem_of_set_seq. lia.
Qed.

Lemma mark_exhausted_spec p :
  wf p → _current_idx p ∉ exhausted p →
  let r := mark_exhausted p in
  wf (snd r) ∧ keys (snd r) = keys p
  ∧ exhausted (snd r) = {[ _current_idx p ]} ∪ exhausted p
  ∧ size (exhausted (snd r)) = S (size (exhausted p))
  ∧ fst r = negb (all_exhausted (snd r))
  ∧ (fst r = true → _current_idx (snd r) ∉ exhausted (snd r)).
Proof.
  intros Hwf Hfree. unfold mark_exhausted.
  set (p1 := add_exhausted p (_current_idx p)).
  assert (wf p1) as Hwf1.
  { destruct Hwf as [Hi Hb]. split; [done|]. intros i. simpl.
    rewrite elem_of_union, elem_of_singleton. intros [->|?]; [done|by apply Hb]. }
  assert (size (exhausted p1) = S (size (exhausted p))) as Hsz.
  { simpl. rewrite size_union by set_solver. by rewrite size_singleton. }
  destruct (all_exhausted p1) eqn:E; simpl.
  - rewrite E. split_and!; done.
  - apply all_exhausted_false in E.
    destruct (rotate_finds p1 Hwf1 E) as (Hok & Hwf2 & Hfree2 & He & Hk).
    rewrite He, Hk, Hok. split_and!; try done.
    + symmetry. apply negb_true_iff, all_exhausted_false.
      unfold total. rewrite He, Hk. exact E.
    + intros _. by rewrite <- He.
Qed.

Lemma mark_exhausted_times_spec k p :
  wf p → (size (exhausted p) < total p → _current_idx p ∉ exhausted p) →
  size (exhausted p) + k ≤ total p →
  let q := mark_exhausted_times k p in
  wf q ∧ keys q = keys p ∧ size (exhausted q) = size (exhausted p) + k.
Proof.
  revert p. induction k as [|k IH]; intros p Hwf Hfree Hle; simpl.
  { split_and!; [done..|lia]. }
  destruct (mark_exhausted_spec p Hwf) as (Hwf1 & Hk1 & He1 & Hsz1 & Hb1 & Hfree1).
  { apply Hfree. lia. }
  destruct (IH (snd (mark_exhausted p))) as (Hwf2 & Hk2 & Hsz2); [done|..].
  - intros Hlt. apply Hfree1. rewrite Hb1. by apply negb_true_iff, all_exhausted_false.
  - unfold total. rewrite Hk1, Hsz1. fold (total p). lia.
  - split_and!; [done|congruence|lia].
Qed.

Lemma wf_key_at p : wf p → keys p !! _current_idx p = Some (key_at p).
Proof.
  intros [Hidx _]. unfold key_at.
  destruct (lookup_lt_is_Some_2 (keys p) (_current_idx p) Hidx) as [k ->]. done.
Qed.

Lemma wf_rotate p : wf p → wf (snd (_rotate p)).
Proof.
  intros [Hidx Hb]. unfold _rotate.
  destruct (rotate_loop_spec (total p) p) as (Hk & He & _ & Hi & _).
  unfold wf, total in *. rewrite He, Hk. split; [apply Hi; lia|done].
Qed.

Lemma wf_current_key p : wf p → wf (snd (current_key p)).
Proof.
  intros Hwf. unfold current_key. case_decide; [|done].
  pose proof (wf_rotate p Hwf) as Hr. by destruct (_rotate p) as [[] p'].
Qed.

Lemma wf_mark_exhausted p : wf p → wf (snd (mark_exhausted p)).
Proof.
  intros [Hidx Hb]. unfold mark_exhausted.
  assert (wf (add_exhausted p (_current_idx p))) as Hwf1.
  { split; [done|]. intros i. simpl.
    rewrite elem_of_union, elem_of_singleton. intros [->|?]; [done|by apply Hb]. }
  destruct (all_exhausted _); [done|]. by apply wf_rotate.
Qed.

Lemma exhausted_rotate p : exhausted (snd (_rotate p)) = exhausted p.
Proof. unfold _rotate. by destruct (rotate_loop_spec (total p) p) as (_ & -> & _). Qed.

Lemma exhausted_current_key p : exhausted (snd (current_key p)) = exhausted p.
Proof.
  unfold current_key. case_decide; [|done].
  pose proof (exhausted_rotate p) as He.
  destruct (_rotate p) as [[] p']; exact He.
Qed.

Lemma exhausted_mark_exhausted p :
  exhausted (snd (mark_exhausted p)) = {[ _current_idx p ]} ∪ exhausted p.
Proof.
  unfold mark_exhausted. destruct (all_exhausted _); [done|].
  by rewrite exhausted_rotate.
Qed.

(** C5. A pool built from N credentials is fully exhausted after N calls of
    [mark_exhausted]: [all_exhausted] is true and [current_key] returns
    [None].  No operation of the pool removes an index from the exhausted
    set: [mark_exhausted], [current_key] and [_rotate] all leave a superset
    behind. *)
Theorem pool_rotation name ks p0 :
  init name ks = Some p0 →
  all_exhausted (mark_exhausted_times (length ks) p0) = true
  ∧ fst (current_key (mark_exhausted_times (length ks) p0)) = None
  ∧ (∀ p, exhausted p ⊆ exhausted (snd (mark_exhausted p))
          ∧ exhausted p ⊆ exhausted (snd (current_key p))
          ∧ exhausted p ⊆ exhausted (snd (_rotate p))).
Proof.
  intros Hinit. destruct (wf_init _ _ _ Hinit) as (Hwf & He & Hk).
  destruct (mark_exhausted_times_spec (length ks) p0 Hwf) as (Hwfq & Hkq & Hszq).
  { rewrite He. set_solver. }
  { rewrite He, size_empty. unfold total. rewrite Hk. lia. }
  set (q := mark_exhausted_times (length ks) p0) in *.
  assert (total q ≤ size (exhausted q)) as Hfull.
  { unfold total. rewrite Hkq, Hszq, He, Hk. lia. }
  split_and!.
  - by apply all_exhausted_true.
  - unfold current_key. pose proof (full_pool q Hwfq Hfull) as Hall.
    destruct (decide (_current_idx q ∈ exhausted q)) as [_|Hn].
    + pose proof (rotate_fails q Hwfq Hall) as Hf.
      destruct (_rotate q) as [ok q']. simpl in Hf. by subst ok.
    + exfalso. apply Hn, Hall. by destruct Hwfq.
  - intros p. rewrite exhausted_mark_exhausted, exhausted_current_key, exhausted_rotate.
    set_solver.
Qed.
End KeyPoolFacts.

Lemma pool_rotation_witness :
  KeyPool.init "Apollo" ["K1"; "K2"] = Some (KeyPool.mk "Apollo" ["K1"; "K2"] ∅ 0)
  ∧ KeyPool.all_exhausted
      (KeyPool.mark_exhausted_times 2 (KeyPool.mk "Apollo" ["K1"; "K2"] ∅ 0)) = true.
Proof.
  split; [reflexivity|].
  apply (pool_rotation "Apollo" ["K1"; "K2"] (KeyPool.mk "Apollo" ["K1"; "K2"] ∅ 0)).
  reflexivity.
Defined.

(* ===================================================================== *)
(** ** Search Cache: persistence and reloading                            *)
(* ===================================================================== *)

Section SearchCacheFacts.
Import SearchCache.












Lemma is_done_mark_done (c : t) k k' :
  is_done (mark_done c k) k' = true ↔ k' = k ∨ is_done c k' = true.
Proof.
  unfold is_done, mark_done; simpl. rewrite !bool_decide_eq_true. set_solver.
Qed.



(** A cache constructed with members that are not strings has at least one
    such member. *)
Lemma init_untyped_others disk u :
  init disk = ConstructedUntyped u → u_others u ≠ [] ∧ u_storage u = disk.
Proof.
  unfold init. destruct disk as [[|j]|]; try done.
  destruct j as [| | | |l|kv]; try done.
  destruct (default (JArr []) (dict_get "completed_searches" kv)) as [| | |s|l|kv'];
    try done.
  unfold py_set. destruct (existsb is_unhashable l); [done|].
  destruct (mapM json_str l) as [ss|] eqn:Hm; [done|].
  intros [= <-]. split; [|done]. cbn [u_others]. intros Hnil.
  assert (is_Some (mapM json_str l)) as [ss Hss]; [|congruence].
  apply mapM_is_Some. apply Forall_forall. intros j Hj.
  destruct (json_str j) as [x|] eqn:Hx; [by eexists|].
  assert (j ∈ filter (λ j, json_str j = None) l) as Hin
    by by apply list_elem_of_filter.
  rewrite Hnil in Hin. by apply elem_of_nil in Hin.
Qed.

(** On such a cache [mark_done] raises [TypeError]: the identifier is done
    in the object, the file is left empty, and a cache constructed over it
    afterwards holds nothing. *)
Lemma mark_done_untyped_loses disk u key :
  init disk = ConstructedUntyped u →
  ∃ u', mark_done_untyped u key = MarkRaised TypeError u'
        ∧ is_done_untyped u' key = true
        ∧ (∀ x, is_done_untyped u x = true → is_done_untyped u' x = true)
        ∧ u_storage u' = Some Garbage
        ∧ init (u_storage u') = Constructed (mk ∅ (Some Garbage)).
Proof.
  intros Hinit. destruct (init_untyped_others _ _ Hinit) as [Hne _].
  unfold mark_done_untyped. destruct (u_others u) as [|j others]; [done|].
  eexists. split; [reflexivity|]. unfold is_done_untyped. cbn [u_completed u_storage].
  split_and!; [|intros x|done..]; rewrite ?bool_decide_eq_true; set_solver.
Qed.


(** C8. The constructor does not survive every storage content: a file
    holding the JSON list [[]] makes [data.get] raise [AttributeError], and
    an object whose [completed_searches] is null makes [set] raise
    [TypeError]; neither is among the exceptions [_load] catches.  A missing
    file and unparsable text do give the empty cache. *)
Theorem cache_load_escapes :
  init (Some (Json (JArr []))) = Raised AttributeError
  ∧ init (Some (Json (JObj [("completed_searches", JNull)]))) = Raised TypeError
  ∧ init None = Constructed (mk ∅ None)
  ∧ init (Some Garbage) = Constructed (mk ∅ (Some Garbage)).
Proof. split_and!; reflexivity. Qed.

End SearchCacheFacts.


(* ===================================================================== *)
(** ** Remote clients: the failover loop                                  *)
(* ===================================================================== *)

Section FailoverFacts.
Import KeyPool.

Lemma keys_rotate p : keys (snd (_rotate p)) = keys p.
Proof. unfold _rotate. by destruct (rotate_loop_spec (total p) p) as (-> & _). Qed.

Lemma keys_mark_exhausted p : keys (snd (mark_exhausted p)) = keys p.
Proof.
  unfold mark_exhausted. destruct (all_exhausted _); [done|]. by rewrite keys_rotate.
Qed.

Lemma current_key_some p k p1 :
  current_key p = (Some k, p1) →
  (_current_idx p1 ∉ exhausted p1) ∧ exhausted p1 = exhausted p ∧ keys p1 = keys p
  ∧ k = key_at p1.
Proof.
  unfold current_key. case_decide as Hin.
  - unfold _rotate.
    destruct (rotate_loop_spec (total p) p) as (Hk & He & _ & _ & Ht & _).
    destruct (rotate_loop (total p) p) as [[] p']; intros [= <- <-]; simpl in *.
    split_and!; try done. rewrite He. by apply Ht.
  - by intros [= <- <-].
Qed.

Lemma current_key_none p p1 :
  current_key p = (None, p1) → exhausted p1 = exhausted p ∧ keys p1 = keys p.
Proof.
  unfold current_key. case_decide as Hin; [|done].
  pose proof (exhausted_rotate p) as He. pose proof (keys_rotate p) as Hk.
  destruct (_rotate p) as [[] p']; intros [= <-]; done.
Qed.

Lemma current_key_free p :
  _current_idx p ∉ exhausted p → current_key p = (Some (key_at p), p).
Proof. intros Hfree. unfold current_key. by case_decide. Qed.

Lemma size_mark_exhausted p :
  _current_idx p ∉ exhausted p →
  size (exhausted (snd (mark_exhausted p))) = S (size (exhausted p)).
Proof.
  intros Hfree. rewrite exhausted_mark_exhausted, size_union by set_solver.
  by rewrite size_singleton.
Qed.

(** The two loops are the same function: after [current_key] has returned
    a key, reading it again for the headers gives the same key and leaves
    the pool as it is. *)
Lemma apollo_loop_is_hunter_loop fuel r p w :
  ApolloClient.failover_loop fuel r p w = HunterClient.failover_loop fuel r p w.
Proof.
  revert p w. induction fuel as [|fuel IH]; intros p w; simpl; [done|].
  destruct (all_exhausted p); [done|].
  destruct (current_key p) as [[k|] p1] eqn:Hck; [|done].
  apply current_key_some in Hck as (Hfree & _ & _ & ->).
  rewrite (current_key_free p1 Hfree).
  destruct (http r (Some (key_at p1)) w) as [[status b|] w1]; [|done].
  destruct (is_exhaustion_code status).
  { destruct (mark_exhausted p1) as [[] p2]; [apply IH|done]. }
  destruct (status =? 401)%Z; [|done].
  destruct (mark_exhausted p1) as [[] p2]; [apply IH|done].
Qed.

Lemma apollo_is_hunter r p w :
  ApolloClient._request_with_failover r p w = HunterClient._request_with_failover r p w.
Proof.
  unfold ApolloClient._request_with_failover, HunterClient._request_with_failover.
  by rewrite apollo_loop_is_hunter_loop.
Qed.

Lemma http_trace r key w :
  trace (snd (http r key w)) = (trace w ++ [EvHttp r key])%list
  ∧ suffix (net (snd (http r key w))) (net w)
  ∧ (fst (http r key w) = RequestError ∨ fst (http r key w) ∈ net w).
Proof.
  unfold http. destruct (net w) as [|o rest]; simpl; split_and!; try done.
  - by left.
  - by apply suffix_cons_r.
  - right. by left.
Qed.

Lemma http_count_app t1 t2 : http_count (t1 ++ t2) = http_count t1 + http_count t2.
Proof. unfold http_count. by rewrite filter_app, length_app. Qed.

Lemma hunter_loop_spec fuel r p w :
  total p - size (exhausted p) < fuel →
  ∃ res, (∀ extra, HunterClient.failover_loop (fuel + extra) r p w = Some res)
         ∧ loop_result r p w res.
Proof.
  revert p w. induction fuel as [|fuel IH]; intros p w Hfuel; [lia|]. simpl.
  assert (loop_result r p w (empty_body, p, w)) as Hstay.
  { split_and!; try done; [by left|]. exists []. rewrite app_nil_r. split_and!; try done.
    - unfold http_count; simpl; lia.
    - unfold http_count; simpl; lia. }
  destruct (all_exhausted p) eqn:Hall; [by eexists|].
  apply all_exhausted_false in Hall.
  destruct (current_key p) as [[k|] p1] eqn:Hck.
  2:{ apply current_key_none in Hck as (He & Hk). eexists; split; [done|].
      split_and!; try done; [by rewrite He|by left|].
      exists []. rewrite app_nil_r, He. split_and!; try done; unfold http_count; simpl; lia. }
  apply current_key_some in Hck as (Hfree & He & Hk & ->).
  destruct (http_trace r (Some (key_at p1)) w) as (Htr & Hnet & Hout).
  destruct (http r (Some (key_at p1)) w) as [out w1]. simpl in Htr, Hnet, Hout.
  assert (∀ b, (b = empty_body ∨ ∃ status, Response status b ∈ net w) →
               loop_result r p w (b, p1, w1)) as Hone.
  { intros b Hb. split_and!; try done; [by rewrite He|].
    exists [EvHttp r (Some (key_at p1))]. rewrite He. split_and!; try done.
    - constructor; [|done]. right. by eexists.
    - unfold http_count; simpl. lia.
    - unfold http_count; simpl. lia. }
  assert (∀ sl, (sl = [] ∨ sl = [EvSleep 1]) →
    ∃ res, (∀ extra,
       (let '(ok, p2) := mark_exhausted p1 in
        if ok then HunterClient.failover_loop (fuel + extra) r p2
                     (mk_world (net w1) (trace w1 ++ sl)%list)
        else Some (empty_body, p2, w1)) = Some res)
      ∧ loop_result r p w res) as Hretry.
  { intros sl Hsl.
    pose proof (size_mark_exhausted p1 Hfree) as Hsz.
    pose proof (keys_mark_exhausted p1) as Hk2.
    pose proof (exhausted_mark_exhausted p1) as He2.
    destruct (mark_exhausted p1) as [ok p2]. simpl in Hsz, Hk2, He2.
    destruct ok.
    - destruct (IH p2 (mk_world (net w1) (trace w1 ++ sl)%list)) as ([[b p'] w'] & Hrun & Hres).
      { unfold total in *. rewrite Hk2, Hsz, Hk, He. lia. }
      exists (b, p', w'). split; [done|].
      destruct Hres as (Hk' & He' & Hn' & Hb' & t & Ht & Hev & Hc1 & Hc2). simpl in *.
      split_and!.
      + congruence.
      + rewrite He2, He in He'. intros i Hi. apply He'. apply elem_of_union. by right.
      + by etrans.
      + destruct Hb' as [->|(status' & Hin)]; [by left|]. right. exists status'.
        eapply elem_of_suffix; [exact Hin|done].
      + exists ([EvHttp r (Some (key_at p1))] ++ sl ++ t)%list. split_and!.
        * rewrite Ht, Htr. by rewrite <- !app_assoc.
        * apply Forall_app. split; [constructor; [right; by eexists|done]|].
          apply Forall_app. split; [|done].
          destruct Hsl as [->| ->]; [done|]. constructor; [by left|done].
        * rewrite !http_count_app. unfold total in *. rewrite Hk2, Hsz, Hk, He in Hc1.
          assert (http_count sl = 0) as -> by (by destruct Hsl as [->| ->]).
          unfold http_count at 1; simpl. lia.
        * rewrite !http_count_app. rewrite Hsz, He in Hc2.
          assert (http_count sl = 0) as -> by (by destruct Hsl as [->| ->]).
          unfold http_count at 1; simpl. lia.
    - eexists; split; [done|]. split_and!; try done.
      + congruence.
      + rewrite He2, He. intros i Hi. apply elem_of_union. by right.
      + by left.
      + exists [EvHttp r (Some (key_at p1))]. split_and!; try done.
        * constructor; [right; by eexists|done].
        * unfold http_count; simpl. lia.
        * unfold http_count; simpl. rewrite Hsz, He. lia. }
  destruct out as [status b|]; [|eexists; split; [done|apply Hone; by left]].
  destruct (is_exhaustion_code status).
  { apply (Hretry [EvSleep 1]). by right. }
  destruct (status =? 401)%Z.
  { destruct (Hretry []) as (res & Hrun & Hres); [by left|].
    exists res. split; [|done]. intros extra. specialize (Hrun extra).
    rewrite app_nil_r in Hrun. by destruct w1. }
  destruct Hout as [?|Hout]; [done|].
  destruct (raises_for_status status); eexists; (split; [done|apply Hone]);
    [by left|right; by eexists].
Qed.

Lemma hunter_rwf_spec r p w :
  (∀ extra, HunterClient.failover_loop (S (total p + extra)) r p w
            = Some (HunterClient._request_with_failover r p w))
  ∧ loop_result r p w (HunterClient._request_with_failover r p w).
Proof.
  destruct (hunter_loop_spec (S (total p)) r p w) as (res & Hrun & Hres); [lia|].
  assert (HunterClient._request_with_failover r p w = res) as ->.
  { unfold HunterClient._request_with_failover.
    specialize (Hrun 0). rewrite Nat.add_0_r in Hrun. by rewrite Hrun. }
  split; [|done]. intros extra. apply (Hrun extra).
Qed.

(** One pass of the loop, with the rest of the loop as the function
    itself. *)
Lemma hunter_rwf_unfold r p w k p1 :
  all_exhausted p = false → current_key p = (Some k, p1) →
  HunterClient._request_with_failover r p w =
    let '(out, w1) := http r (Some k) w in
    match out with
    | RequestError => (empty_body, p1, w1)
    | Response status b =>
        if is_exhaustion_code status then
          let '(ok, p2) := mark_exhausted p1 in
          if ok then HunterClient._request_with_failover r p2 (sleep 1 w1)
          else (empty_body, p2, w1)
        else if (status =? 401)%Z then
          let '(ok, p2) := mark_exhausted p1 in
          if ok then HunterClient._request_with_failover r p2 w1
          else (empty_body, p2, w1)
        else if raises_for_status status then (empty_body, p1, w1)
        else (b, p1, w1)
    end.
Proof.
  intros Hall Hck.
  unfold HunterClient._request_with_failover at 1. simpl. rewrite Hall, Hck.
  apply current_key_some in Hck as (Hfree & He & Hk & _).
  apply all_exhausted_false in Hall.
  assert (∀ w' w1, (let '(ok, p2) := mark_exhausted p1 in
                 if ok then HunterClient.failover_loop (total p) r p2 w'
                 else Some (empty_body, p2, w1))
                = Some (let '(ok, p2) := mark_exhausted p1 in
                        if ok then HunterClient._request_with_failover r p2 w'
                        else (empty_body, p2, w1))) as Hretry.
  { intros w' w1.
    pose proof (size_mark_exhausted p1 Hfree) as Hsz.
    pose proof (keys_mark_exhausted p1) as Hk2.
    destruct (mark_exhausted p1) as [[] p2]; [|done]. simpl in Hsz, Hk2.
    assert (total p2 = total p) as Htot by (unfold total; congruence).
    destruct (hunter_loop_spec (total p) r p2 w') as (res & Hrun & _).
    { rewrite Htot, Hsz, He. lia. }
    pose proof (Hrun 0) as H0. rewrite Nat.add_0_r in H0. rewrite H0.
    unfold HunterClient._request_with_failover. rewrite Htot.
    specialize (Hrun 1). rewrite Nat.add_1_r in Hrun. by rewrite Hrun. }
  destruct (http r (Some k) w) as [[status b|] w1]; [|done].
  destruct (is_exhaustion_code status); [by rewrite Hretry|].
  destruct (status =? 401)%Z; [by rewrite Hretry|].
  by destruct (raises_for_status status).
Qed.

Lemma exhaustion_code_iff status :
  is_exhaustion_code status = true ↔ (status = 429 ∨ status = 403)%Z.
Proof.
  unfold is_exhaustion_code, EXHAUSTION_CODES. rewrite bool_decide_eq_true.
  rewrite !elem_of_cons, elem_of_nil. tauto.
Qed.

Lemma raises_for_status_iff status :
  raises_for_status status = true ↔ (400 ≤ status < 600)%Z.
Proof. unfold raises_for_status. rewrite andb_true_iff. lia. Qed.

(** C7. Both failover loops terminate: with one unit of fuel per test of the
    [while] condition, N+1 units are enough for a pool of N credentials, and
    any larger amount gives the same result.  By [loop_result], a logical
    query issues at most as many requests as the pool has credentials still
    active, so it attaches at most N credentials; every request but possibly
    the last adds one index to the exhausted set, which never shrinks. *)
Theorem failover_terminates r p w extra :
  ApolloClient.failover_loop (S (total p + extra)) r p w
    = Some (ApolloClient._request_with_failover r p w)
  ∧ HunterClient.failover_loop (S (total p + extra)) r p w
    = Some (HunterClient._request_with_failover r p w)
  ∧ loop_result r p w (ApolloClient._request_with_failover r p w)
  ∧ loop_result r p w (HunterClient._request_with_failover r p w).
Proof.
  destruct (hunter_rwf_spec r p w) as (Hrun & Hres).
  rewrite apollo_loop_is_hunter_loop, apollo_is_hunter. by split_and!.
Qed.

(** C3 (amended).  One pass of either failover loop, for a pool that is not
    exhausted and whose current credential is [k].  On status 429 or 403 the
    current index joins the exhausted set; if a credential remains the loop
    pauses one second and retries the same request, otherwise it returns
    the empty result.  On 401 it does the same without the pause.  On any
    other status from 400 to 599, and on a network failure, it returns the
    empty result at once and the exhausted set is unchanged.  On every
    remaining status, 2xx or not, it returns the parsed body. *)
Theorem failover_classification rwf r p w k p1 :
  rwf = ApolloClient._request_with_failover ∨ rwf = HunterClient._request_with_failover →
  all_exhausted p = false → current_key p = (Some k, p1) →
  ∃ out w1, http r (Some k) w = (out, w1)
    ∧ exhausted p1 = exhausted p
    ∧ exhausted (snd (mark_exhausted p1)) = {[ _current_idx p1 ]} ∪ exhausted p1
    (* 429 and 403: mark, then pause and retry, or give up *)
    ∧ (∀ status b, out = Response status b → (status = 429 ∨ status = 403)%Z →
         rwf r p w =
           if fst (mark_exhausted p1)
           then rwf r (snd (mark_exhausted p1)) (sleep 1 w1)
           else (empty_body, snd (mark_exhausted p1), w1))
    (* 401: mark, then retry at once, or give up *)
    ∧ (∀ b, out = Response 401 b →
         rwf r p w =
           if fst (mark_exhausted p1)
           then rwf r (snd (mark_exhausted p1)) w1
           else (empty_body, snd (mark_exhausted p1), w1))
    (* any other client or server error, and a network failure *)
    ∧ (∀ status b, out = Response status b → (400 ≤ status < 600)%Z →
         status ≠ 429%Z → status ≠ 403%Z → status ≠ 401%Z →
         rwf r p w = (empty_body, p1, w1))
    ∧ (out = RequestError → rwf r p w = (empty_body, p1, w1))
    (* every other status: the parsed body *)
    ∧ (∀ status b, out = Response status b → (status < 400 ∨ 600 ≤ status)%Z →
         rwf r p w = (b, p1, w1)).
Proof.
  intros Hrwf Hall Hck.
  assert (rwf r p w = HunterClient._request_with_failover r p w
          ∧ ∀ p' w', rwf r p' w' = HunterClient._request_with_failover r p' w')
    as [Heq Hrec].
  { destruct Hrwf as [->| ->]; [|done]. split; [apply apollo_is_hunter|].
    intros; apply apollo_is_hunter. }
  rewrite Heq, (hunter_rwf_unfold r p w k p1 Hall Hck).
  pose proof (current_key_some _ _ _ Hck) as (Hfree & He & _ & _).
  destruct (http r (Some k) w) as [out w1]. exists out, w1.
  split_and!; try done.
  - apply exhausted_mark_exhausted.
  - intros status b -> Hs. apply exhaustion_code_iff in Hs. rewrite Hs, !Hrec.
    by destruct (mark_exhausted p1) as [[] p2].
  - intros b ->. change (is_exhaustion_code 401) with false. cbn match.
    change (401 =? 401)%Z with true. cbn match. rewrite !Hrec.
    by destruct (mark_exhausted p1) as [[] p2].
  - intros status b -> Hrange H1 H2 H3.
    destruct (is_exhaustion_code status) eqn:E1.
    { apply exhaustion_code_iff in E1. lia. }
    destruct (status =? 401)%Z eqn:E2; [lia|].
    apply raises_for_status_iff in Hrange. by rewrite Hrange.
  - by intros ->.
  - intros status b -> Hrange.
    destruct (is_exhaustion_code status) eqn:E1.
    { apply exhaustion_code_iff in E1. lia. }
    destruct (status =? 401)%Z eqn:E2; [lia|].
    destruct (raises_for_status status) eqn:E3; [|done].
    apply raises_for_status_iff in E3. lia.
Qed.
End FailoverFacts.

Lemma failover_classification_witness :
  ApolloClient._request_with_failover (ApolloSearch [] [] "accenture.com" 10) one_key_pool
    (mk_world [Response 500 (mk_body [jane] None [])] [])
  = (empty_body, one_key_pool,
     mk_world [] [EvHttp (ApolloSearch [] [] "accenture.com" 10) (Some "K1")]).
Proof.
  destruct (failover_classification ApolloClient._request_with_failover
              (ApolloSearch [] [] "accenture.com" 10) one_key_pool
              (mk_world [Response 500 (mk_body [jane] None [])] [])
              "K1" one_key_pool)
    as (out & w1 & Hhttp & _ & _ & _ & _ & Herr & _).
  - by left.
  - reflexivity.
  - reflexivity.
  - injection Hhttp as <- <-.
    apply (Herr 500%Z (mk_body [jane] None [])); [reflexivity|lia|lia..].
Defined.

(** C3, as stated, fails for a status that is neither 2xx nor an error code:
    both clients return the parsed body of a 304 response. *)
Lemma failover_other_status_counterexample :
  let p := KeyPool.mk "Apollo" ["K1"] ∅ 0 in
  let b := mk_body [mk_person (PStr "Ann") (PStr "Lee") (PStr "") (PStr "") (PStr "")] None [] in
  let w := mk_world [Response 304 b] [] in
  ¬ (200 ≤ 304 < 300)%Z
  ∧ fst (fst (ApolloClient._request_with_failover (ApolloSearch [] [] "acme.com" 10) p w)) = b
  ∧ fst (fst (HunterClient._request_with_failover (HunterDomainSearch "acme.com" "it" None 10) p w)) = b
  ∧ b ≠ empty_body.
Proof. split_and!; [lia|reflexivity|reflexivity|discriminate]. Qed.


(* ===================================================================== *)
(** ** Credentials from the environment                                   *)
(* ===================================================================== *)

Section EnvKeys.

Lemma add_key_spec keys v :
  add_key keys v = if bool_decide (v ≠ "" ∧ v ∉ keys) then (keys ++ [v])%list else keys.
Proof.
  unfold add_key.
  destruct (nonempty v) eqn:Hne; simpl.
  - apply nonempty_true in Hne. repeat case_bool_decide; naive_solver.
  - assert (v = "") as ->.
    { destruct (decide (v = "")) as [|Hn]; [done|].
      apply nonempty_true in Hn. congruence. }
    case_bool_decide; naive_solver.
Qed.

Lemma foldl_add_key_fmap (h : nat → string) (l : list nat) acc :
  foldl (λ keys i, add_key keys (h i)) acc l = foldl add_key acc (h <$> l).
Proof. revert acc. induction l as [|i l IH]; intros acc; simpl; [done|apply IH]. Qed.

Lemma collect_keys_fold prefix env :
  collect_keys_from_env prefix env = foldl add_key [] (candidates prefix env).
Proof.
  unfold collect_keys_from_env, candidates.
  rewrite fmap_app, foldl_app, <- list_fmap_compose, <- foldl_add_key_fmap.
  reflexivity.
Qed.

Lemma fold_add_key acc vs :
  ∃ rest, foldl add_key acc vs = (acc ++ rest)%list
    ∧ sublist rest vs
    ∧ (NoDup acc → NoDup (acc ++ rest))
    ∧ (∀ k, k ∈ rest → k ≠ "")
    ∧ (∀ k, k ∈ vs → k ≠ "" → k ∈ (acc ++ rest)%list).
Proof.
  revert acc. induction vs as [|v vs IH]; intros acc; simpl.
  { exists []. rewrite app_nil_r. split_and!; try done.
    - intros k Hk. by apply elem_of_nil in Hk.
    - intros k Hk. by apply elem_of_nil in Hk. }
  rewrite add_key_spec. case_bool_decide as Hv.
  - destruct Hv as [Hne Hfresh].
    destruct (IH (acc ++ [v])%list) as (rest & Heq & Hsub & Hnd & Hnon & Hall).
    assert (((acc ++ [v]) ++ rest = acc ++ v :: rest)%list) as Hmid
      by (by rewrite <- app_assoc).
    exists (v :: rest). rewrite Heq, <- Hmid. split_and!; try done.
    + by apply sublist_skip.
    + intros Hacc. apply Hnd.
      apply NoDup_app. split_and!; [done| |apply NoDup_singleton].
      intros x Hx Hx'. apply list_elem_of_singleton in Hx' as ->. done.
    + intros k Hk. apply elem_of_cons in Hk as [->|Hk]; [done|by apply Hnon].
    + intros k Hk Hk'. apply elem_of_cons in Hk as [->|Hk].
      * rewrite !elem_of_app, list_elem_of_singleton. tauto.
      * by apply Hall.
  - destruct (IH acc) as (rest & Heq & Hsub & Hnd & Hnon & Hall).
    exists rest. split_and!; try done.
    + by apply sublist_cons.
    + intros k Hk Hk'. apply elem_of_cons in Hk as [->|Hk]; [|by apply Hall].
      apply elem_of_app. left.
      destruct (decide (v ∈ acc)) as [|Hn]; [done|]. exfalso. by apply Hv.
Qed.

Lemma numbered_inj prefix i j : numbered prefix i = numbered prefix j → i = j.
Proof.
  unfold numbered. intros H. apply (inj (String.app prefix)) in H.
  apply (inj (String.app "_")) in H. by apply (inj pretty) in H.
Qed.

Lemma string_length_app s1 s2 :
  String.length (s1 +:+ s2) = String.length s1 + String.length s2.
Proof.
  induction s1 as [|a s1 IH]; [done|].
  change (String a s1 +:+ s2) with (String a (s1 +:+ s2)). simpl. by rewrite IH.
Qed.

Lemma numbered_not_bare prefix i : numbered prefix i ≠ prefix.
Proof.
  unfold numbered. intros H.
  assert (String.length (prefix +:+ "_" +:+ pretty i) = String.length prefix) as Hlen
    by (by rewrite H).
  rewrite !string_length_app in Hlen. simpl in Hlen. lia.
Qed.

Lemma candidates_insert_high prefix env i v :
  21 ≤ i → candidates prefix (<[numbered prefix i := v]> env) = candidates prefix env.
Proof.
  intros Hi. unfold candidates. apply Forall_fmap_ext, Forall_forall. intros k Hk.
  unfold env_get. rewrite lookup_insert_ne; [done|].
  apply elem_of_app in Hk as [Hk|Hk].
  - apply list_elem_of_fmap in Hk as (j & -> & Hj). apply elem_of_seq in Hj.
    intros Heq. apply numbered_inj in Heq. lia.
  - apply list_elem_of_singleton in Hk as ->. apply numbered_not_bare.
Qed.

(** C10. The keys collected are a subsequence of the twenty numbered
    entries [PREFIX_1] .. [PREFIX_20] followed by the bare [PREFIX], each
    stripped; an entry numbered 21 or more has no influence on the result;
    the list has no duplicates and no empty string, and every non-empty
    candidate is in it. *)
Theorem collect_keys_from_env_spec prefix env :
  (* only the twenty numbered entries and the bare one, in that order *)
  sublist (collect_keys_from_env prefix env) (candidates prefix env)
  ∧ (∀ i v, 21 ≤ i →
       collect_keys_from_env prefix (<[numbered prefix i := v]> env)
       = collect_keys_from_env prefix env)
  (* no duplicates, no empty strings, nothing usable left out *)
  ∧ NoDup (collect_keys_from_env prefix env)
  ∧ (∀ k, k ∈ collect_keys_from_env prefix env → k ≠ "")
  ∧ (∀ k, k ∈ candidates prefix env → k ≠ "" → k ∈ collect_keys_from_env prefix env).
Proof.
  destruct (fold_add_key [] (candidates prefix env)) as (rest & Heq & Hsub & Hnd & Hnon & Hall).
  change ([] ++ rest)%list with rest in *. split_and!.
  - by rewrite collect_keys_fold, Heq.
  - intros i v Hi. by rewrite !collect_keys_fold, candidates_insert_high.
  - rewrite collect_keys_fold, Heq. apply Hnd, NoDup_nil_2.
  - rewrite collect_keys_fold, Heq. exact Hnon.
  - rewrite collect_keys_fold, Heq. exact Hall.
Qed.

End EnvKeys.

Lemma collect_keys_from_env_witness :
  collect_keys_from_env "HUNTER_API_KEY"
    (<["HUNTER_API_KEY_21" := "late"]> (<["HUNTER_API_KEY_2" := " k2 "]>
       (<["HUNTER_API_KEY" := "k0"]> ∅)))
  = ["k2"; "k0"].
Proof.
  destruct (collect_keys_from_env_spec "HUNTER_API_KEY"
              (<["HUNTER_API_KEY_2" := " k2 "]> (<["HUNTER_API_KEY" := "k0"]> ∅)))
    as (_ & Hhigh & _).
  change "HUNTER_API_KEY_21" with (numbered "HUNTER_API_KEY" 21).
  rewrite (Hhigh 21 "late"); [reflexivity|lia].
Defined.

(* ===================================================================== *)
(** ** The collector: what a run adds                                     *)
(* ===================================================================== *)

Lemma hunter_rwf_result r p w : loop_result r p w (HunterClient._request_with_failover r p w).
Proof. by destruct (hunter_rwf_spec r p w) as [_ ?]. Qed.

Lemma apollo_rwf_result r p w : loop_result r p w (ApolloClient._request_with_failover r p w).
Proof. rewrite apollo_is_hunter. apply hunter_rwf_result. Qed.

(** The two ways one pass of the Apollo person loop can go. *)
Lemma apollo_person_cases en f r p x :
  let key := name_key (p_first_name x) (p_last_name x) (name f) in
  (key ∈ seen r ∧ apollo_person en f (r, p) x = (r, p))
  ∨ ((key ∉ seen r) ∧ ∃ c enr' p' w',
       apollo_person en f (r, p) x
         = (mk_run (contacts r ++ [c])%list ({[ key ]} ∪ seen r) enr' (cache r) w', p')
       ∧ contact_key c = key ∧ source c = "Apollo.io" ∧ enriched r ⊆ enr'
       ∧ ((w' = outside r ∧ p' = p ∧ enr' = enriched r)
          ∨ ((key ∉ enriched r) ∧ en = true ∧ ∃ b p1 w1,
               ApolloClient.enrich_person (p_first_name x) (p_last_name x) (domain f)
                 p (outside r) = (b, p1, w1)
               ∧ p' = p1 ∧ w' = sleep RATE_LIMIT_DELAY w1))).
Proof.
  intros key. unfold apollo_person. fold key.
  case_bool_decide as Hseen; [by left|]. right. split; [done|].
  destruct (en && negb (truthy (p_email x)) && truthy (p_first_name x)
            && truthy (p_last_name x) && negb (KeyPool.all_exhausted p)) eqn:Hcond.
  - case_bool_decide as Henr.
    + eexists _, _, _, _. split; [reflexivity|]. split_and!; try done. by left.
    + assert (en = true) as Hen by (by destruct en).
      destruct (ApolloClient.enrich_person _ _ _ p (outside r)) as [[b p1] w1] eqn:Hcall.
      destruct (person_of b) as [pd|].
      * eexists _, _, _, _. split; [reflexivity|]. split_and!; try done.
        { destruct (truthy (pd_email pd)); set_solver. }
        right. split_and!; try done. by eexists _, _, _.
      * eexists _, _, _, _. split; [reflexivity|]. split_and!; try done.
        right. split_and!; try done. by eexists _, _, _.
  - eexists _, _, _, _. split; [reflexivity|]. split_and!; try done. by left.
Qed.

Section Collector.
Import KeyPool.
Context (firms : list firm).

(** What is to be known of the appended contacts, and the Hunter entries
    for which it can be known. *)
Context (ok : hunter_entry → Prop).
Context (Q : gset string → gset string → list Contact → Prop).
Hypothesis Q_nil : ∀ s0 s1, Q s0 s1 [].
Hypothesis Q_app : ∀ s0 s1 s2 new1 new2,
  s0 ⊆ s1 → s1 ⊆ s2 → Q s0 s1 new1 → Q s1 s2 new2 → Q s0 s2 (new1 ++ new2).
Hypothesis Q_apollo : ∀ s0 c,
  contact_key c ∉ s0 → source c = "Apollo.io" → Q s0 ({[ contact_key c ]} ∪ s0) [c].
Hypothesis Q_hunter : ∀ s0 f label e,
  ok e →
  (if truthy (h_value e) then lower (fmt (h_value e)) else "") ∉ s0 →
  name_key (h_first_name e) (h_last_name e) (name f) ∉ s0 →
  Q s0 ({[ name_key (h_first_name e) (h_last_name e) (name f) ]}
        ∪ (if nonempty (if truthy (h_value e) then lower (fmt (h_value e)) else "")
           then {[ if truthy (h_value e) then lower (fmt (h_value e)) else "" ]} ∪ s0
           else s0))
    [hunter_contact f label e].

Local Abbreviation extends := (extends Q firms).

Lemma enrich_calls_fresh_nil e0 : enrich_calls_fresh firms e0 [].
Proof. intros ???? Hin. by apply elem_of_nil in Hin. Qed.

Lemma extends_refl s : extends s s.
Proof.
  split_and!; try done.
  - exists []. split; [by rewrite app_nil_r|apply Q_nil].
  - exists []. split; [by rewrite app_nil_r|apply enrich_calls_fresh_nil].
Qed.

Lemma extends_trans s s1 s2 :
  extends s s1 → extends s1 s2 → extends s s2.
Proof.
  intros (Hs1 & He1 & Hn1 & (new1 & Hc1 & Hf1) & (t1 & Ht1 & Hq1))
         (Hs2 & He2 & Hn2 & (new2 & Hc2 & Hf2) & (t2 & Ht2 & Hq2)).
  split_and!.
  - by etrans.
  - by etrans.
  - by etrans.
  - exists (new1 ++ new2)%list. split; [by rewrite Hc2, Hc1, app_assoc|].
    by eapply Q_app.
  - exists (t1 ++ t2)%list. split; [by rewrite Ht2, Ht1, app_assoc|].
    intros first last dom k Hin. apply elem_of_app in Hin as [Hin|Hin].
    + by apply (Hq1 first last dom k).
    + destruct (Hq2 first last dom k Hin) as (f & Hf & Hd & Hk).
      exists f. split_and!; [done..|]. intros ?. by apply Hk, He1.
Qed.

(** A change of the world alone. *)
Lemma extends_outside s w t :
  suffix (net w) (net (outside s)) →
  trace w = (trace (outside s) ++ t)%list →
  enrich_calls_fresh firms (enriched s) t →
  extends s (set_outside s w).
Proof.
  intros Hnet Htr Hq. split_and!; try done.
  - exists []. split; [by rewrite app_nil_r|apply Q_nil].
  - by exists t.
Qed.

Lemma extends_pause s : extends s (pause s).
Proof.
  apply (extends_outside s _ [EvSleep RATE_LIMIT_DELAY]); [done..|].
  intros ???? Hin. by apply list_elem_of_singleton in Hin.
Qed.

Lemma extends_cache_mark_done s k : extends s (cache_mark_done s k).
Proof.
  split_and!; try done.
  - exists []. split; [by rewrite app_nil_r|apply Q_nil].
  - exists []. split; [by rewrite app_nil_r|apply enrich_calls_fresh_nil].
Qed.

(** The events of a request that is not an enrichment. *)
Lemma search_events_fresh r t e0 :
  (∀ first last dom, r ≠ ApolloEnrich first last dom) →
  Forall (λ e, e = EvSleep 1 ∨ ∃ k, e = EvHttp r (Some k)) t →
  enrich_calls_fresh firms e0 t.
Proof.
  intros Hr Ht first last dom k Hin.
  rewrite Forall_forall in Ht. destruct (Ht _ Hin) as [?|(k' & Heq)]; [done|].
  injection Heq as <- _. by destruct (Hr first last dom).
Qed.

Lemma enrich_events_fresh f first last t e0 :
  f ∈ firms → name_key first last (name f) ∉ e0 →
  Forall (λ e, e = EvSleep 1 ∨ ∃ k, e = EvHttp (ApolloEnrich first last (domain f)) (Some k)) t →
  enrich_calls_fresh firms e0 t.
Proof.
  intros Hf Hk Ht first' last' dom k Hin.
  rewrite Forall_forall in Ht. destruct (Ht _ Hin) as [?|(k' & Heq)]; [done|].
  injection Heq as -> -> -> _. by exists f.
Qed.

Lemma apollo_person_extends en f r p x :
  f ∈ firms → extends r (fst (apollo_person en f (r, p) x)).
Proof.
  intros Hf.
  destruct (apollo_person_cases en f r p x)
    as [[_ ->]|(Hseen & c & enr' & p' & w' & -> & Hkey & Hsrc & Henr & Hworld)];
    [apply extends_refl|]. simpl.
  assert (Q (seen r)
            ({[ name_key (p_first_name x) (p_last_name x) (name f) ]} ∪ seen r) [c]) as Hfresh.
  { rewrite <- Hkey. apply Q_apollo; [by rewrite Hkey|done]. }
  destruct Hworld as [(-> & -> & ->)|(Hnew & _ & b & p1 & w1 & Hcall & -> & ->)].
  - split_and!; simpl; try done; [set_solver|by exists [c]|].
    exists []. split; [by rewrite app_nil_r|apply enrich_calls_fresh_nil].
  - pose proof (apollo_rwf_result
                  (ApolloEnrich (p_first_name x) (p_last_name x) (domain f)) p (outside r))
      as Hres.
    unfold ApolloClient.enrich_person in Hcall. rewrite Hcall in Hres.
    destruct Hres as (_ & _ & Hnet & _ & t & Htr & Hev & _).
    split_and!; simpl; try done; [set_solver|by exists [c]|].
    exists (t ++ [EvSleep RATE_LIMIT_DELAY])%list. split; [by rewrite Htr, app_assoc|].
    intros first last dom k Hin. apply elem_of_app in Hin as [Hin|Hin].
    + exact (enrich_events_fresh f (p_first_name x) (p_last_name x) t (enriched r)
               Hf Hnew Hev first last dom k Hin).
    + by apply list_elem_of_singleton in Hin.
Qed.

Lemma apollo_people_extends en f l r p :
  f ∈ firms → extends r (fst (foldl (apollo_person en f) (r, p) l)).
Proof.
  intros Hf. revert r p. induction l as [|x l IH]; intros r p; cbn [foldl].
  { apply extends_refl. }
  pose proof (apollo_person_extends en f r p x Hf) as Hstep.
  destruct (apollo_person en f (r, p) x) as [r1 p1]. simpl in Hstep.
  eapply extends_trans; [exact Hstep|apply IH].
Qed.

(** An Apollo search request, before its people are merged. *)
Lemma apollo_search_extends titles locations dom per_page r p :
  extends r
    (set_outside r (snd (ApolloClient.search_people titles locations dom per_page p (outside r)))).
Proof.
  pose proof (apollo_rwf_result (ApolloSearch titles locations dom per_page) p (outside r))
    as Hres.
  unfold ApolloClient.search_people.
  destruct (ApolloClient._request_with_failover _ p (outside r)) as [[b p1] w1].
  destruct Hres as (_ & _ & Hnet & _ & t & Htr & Hev & _). simpl.
  apply (extends_outside r w1 t); [done..|].
  eapply search_events_fresh; [|exact Hev]. done.
Qed.

Lemma apollo_titles_extends en f r p :
  f ∈ firms → extends r (fst (apollo_titles en f (r, p))).
Proof.
  intros Hf. unfold apollo_titles.
  destruct (SearchCache.is_done _ _); [apply extends_refl|].
  pose proof (apollo_search_extends APOLLO_TITLES APOLLO_LOCATIONS (domain f) 10 r p) as H1.
  destruct (ApolloClient.search_people _ _ _ _ p (outside r)) as [[b p1] w1]. simpl in H1.
  pose proof (apollo_people_extends en f (people b) (set_outside r w1) p1 Hf) as H2.
  destruct (foldl _ _ (people b)) as [r2 p2]. simpl in H2.
  eapply extends_trans; [exact H1|]. eapply extends_trans; [exact H2|].
  destruct (negb (all_exhausted p2) || negb (bool_decide (people b = []))); simpl.
  - eapply extends_trans; [apply extends_cache_mark_done|apply extends_pause].
  - apply extends_pause.
Qed.

Lemma apollo_broad_extends en f r p :
  f ∈ firms → extends r (fst (apollo_broad en f (r, p))).
Proof.
  intros Hf. unfold apollo_broad.
  destruct (SearchCache.is_done _ _); [apply extends_refl|].
  destruct (negb (all_exhausted p)); [|apply extends_refl].
  pose proof (apollo_search_extends ["Talent Acquisition"; "Recruiter"; "Staffing"]
                APOLLO_LOCATIONS (domain f) 5 r p) as H1.
  destruct (ApolloClient.search_people _ _ _ _ p (outside r)) as [[b p1] w1]. simpl in H1.
  pose proof (apollo_people_extends en f (people b) (set_outside r w1) p1 Hf) as H2.
  destruct (foldl _ _ (people b)) as [r2 p2]. simpl in H2.
  eapply extends_trans; [exact H1|]. eapply extends_trans; [exact H2|].
  destruct (negb (all_exhausted p2)); simpl.
  - eapply extends_trans; [apply extends_cache_mark_done|apply extends_pause].
  - apply extends_pause.
Qed.

Lemma apollo_firm_extends en f r a :
  f ∈ firms → extends r (fst (apollo_firm en f r a)).
Proof.
  intros Hf. unfold apollo_firm. destruct a as [p|]; [|apply extends_refl].
  destruct (negb (all_exhausted p)); [|apply extends_refl].
  pose proof (apollo_titles_extends en f r p Hf) as H1.
  destruct (apollo_titles en f (r, p)) as [r1 p1]. simpl in H1.
  pose proof (apollo_broad_extends en f r1 p1 Hf) as H2.
  destruct (apollo_broad en f (r1, p1)) as [r2 p2]. simpl in *.
  eapply extends_trans; [exact H1|exact H2].
Qed.

Lemma hunter_entry_extends f label r e :
  ok e → extends r (hunter_entry_step f label r e).
Proof.
  intros Hok. unfold hunter_entry_step.
  set (dke := if truthy (h_value e) then lower (fmt (h_value e)) else "").
  set (key := name_key (h_first_name e) (h_last_name e) (name f)).
  destruct (bool_decide (dke ∈ seen r) || bool_decide (key ∈ seen r)) eqn:Hdup;
    [apply extends_refl|].
  apply orb_false_iff in Hdup as [Hd Hk].
  apply bool_decide_eq_false in Hd. apply bool_decide_eq_false in Hk.
  split_and!; simpl; try done.
  - destruct (nonempty dke); set_solver.
  - destruct (truthy (h_value e)); set_solver.
  - exists [hunter_contact f label e]. split; [done|]. by apply Q_hunter.
  - exists []. split; [by rewrite app_nil_r|apply enrich_calls_fresh_nil].
Qed.

Lemma hunter_emails_extends f l label r :
  Forall ok l → extends r (process_hunter_emails f l label r).
Proof.
  unfold process_hunter_emails. intros Hl. revert r.
  induction Hl as [|e l He Hl IH]; intros r; cbn [foldl]; [apply extends_refl|].
  eapply extends_trans; [by apply hunter_entry_extends|apply IH].
Qed.

Lemma net_ok_suffix l l' : suffix l' l → net_ok ok l → net_ok ok l'.
Proof. intros [k ->] Hn. by apply Forall_app in Hn as [_ ?]. Qed.

Lemma net_ok_extends s s' :
  extends s s' → net_ok ok (net (outside s)) → net_ok ok (net (outside s')).
Proof. intros (_ & _ & Hnet & _) Hn. by eapply net_ok_suffix. Qed.

Lemma hunter_merge_extends f label key req r p rep :
  net_ok ok (net (outside r)) →
  (∀ first last dom, req ≠ ApolloEnrich first last dom) →
  loop_result req p (outside r) rep →
  extends r (fst (hunter_merge f label key r rep)).
Proof.
  intros Hnamed Hreq Hres. unfold hunter_merge.
  destruct rep as [[b p1] w1].
  destruct Hres as (_ & _ & Hnet & Hbody & t & Htr & Hev & _).
  assert (Forall ok (emails b)) as Hb.
  { destruct Hbody as [->|(status & Hin)]; [by constructor|].
    unfold net_ok in Hnamed. rewrite Forall_forall in Hnamed.
    exact (Hnamed _ Hin). }
  eapply extends_trans.
  { apply (extends_outside r w1 t); [done..|]. by eapply search_events_fresh. }
  eapply extends_trans; [by apply hunter_emails_extends|].
  destruct (negb (all_exhausted p1) || negb (bool_decide (emails b = []))); simpl.
  - eapply extends_trans; [apply extends_cache_mark_done|apply extends_pause].
  - apply extends_pause.
Qed.

Lemma hunter_it_extends f r p :
  net_ok ok (net (outside r)) → extends r (fst (hunter_it f (r, p))).
Proof.
  intros Hn. unfold hunter_it.
  destruct (SearchCache.is_done _ _); [apply extends_refl|].
  eapply hunter_merge_extends; [done| |apply hunter_rwf_result]. done.
Qed.

Lemma hunter_hr_extends f r p :
  net_ok ok (net (outside r)) → extends r (fst (hunter_hr f (r, p))).
Proof.
  intros Hn. unfold hunter_hr.
  destruct (SearchCache.is_done _ _); [apply extends_refl|].
  destruct (negb (all_exhausted p)); [|apply extends_refl].
  eapply hunter_merge_extends; [done| |apply hunter_rwf_result]. done.
Qed.

Lemma hunter_mgmt_extends f r p :
  net_ok ok (net (outside r)) → extends r (fst (hunter_mgmt f (r, p))).
Proof.
  intros Hn. unfold hunter_mgmt.
  destruct (SearchCache.is_done _ _); [apply extends_refl|].
  destruct (negb (all_exhausted p)); [|apply extends_refl].
  eapply hunter_merge_extends; [done| |apply hunter_rwf_result]. done.
Qed.

Lemma hunter_firm_extends it_only f r h :
  net_ok ok (net (outside r)) → extends r (fst (hunter_firm it_only f r h)).
Proof.
  intros Hn. unfold hunter_firm. destruct h as [p|]; [|apply extends_refl].
  destruct (negb (all_exhausted p)); [|apply extends_refl].
  pose proof (hunter_it_extends f r p Hn) as H1.
  destruct (hunter_it f (r, p)) as [r1 p1]. simpl in H1.
  pose proof (net_ok_extends _ _ H1 Hn) as Hn1.
  destruct it_only; cbn [negb]; [done|].
  pose proof (hunter_hr_extends f r1 p1 Hn1) as H2.
  destruct (hunter_hr f (r1, p1)) as [r2 p2]. cbn [fst] in H2.
  pose proof (net_ok_extends _ _ H2 Hn1) as Hn2.
  pose proof (hunter_mgmt_extends f r2 p2 Hn2) as H3.
  destruct (hunter_mgmt f (r2, p2)) as [r3 p3]. cbn [fst] in *.
  eapply extends_trans; [exact H1|]. eapply extends_trans; [exact H2|exact H3].
Qed.

Lemma firm_step_extends en it_only st f :
  f ∈ firms → net_ok ok (net (outside (final st))) →
  extends (final st) (final (firm_step en it_only st f)).
Proof.
  intros Hf Hn. unfold firm_step.
  pose proof (apollo_firm_extends en f (final st) (apollo_pool st) Hf) as H1.
  destruct (apollo_firm en f (final st) (apollo_pool st)) as [r1 a1]. simpl in H1.
  pose proof (hunter_firm_extends it_only f r1 (hunter_pool st) (net_ok_extends _ _ H1 Hn)) as H2.
  destruct (hunter_firm it_only f r1 (hunter_pool st)) as [r2 h2]. simpl in *.
  eapply extends_trans; [exact H1|exact H2].
Qed.

Lemma firms_extends en it_only l st :
  l ⊆ firms → net_ok ok (net (outside (final st))) →
  extends (final st) (final (foldl (firm_step en it_only) st l)).
Proof.
  revert st. induction l as [|f l IH]; intros st Hl Hn; cbn [foldl].
  { apply extends_refl. }
  assert (f ∈ firms) as Hf by (apply Hl; by left).
  pose proof (firm_step_extends en it_only st f Hf Hn) as H1.
  eapply extends_trans; [exact H1|]. apply IH.
  - intros g Hg. apply Hl. by right.
  - by eapply net_ok_extends.
Qed.

Lemma collect_extends a h en existing seen0 enr0 c it_only w :
  net_ok ok (net w) →
  extends (mk_run existing seen0 enr0 c w)
    (final (collect firms a h en existing seen0 enr0 c it_only w)).
Proof.
  intros Hn. unfold collect.
  by apply (firms_extends en it_only firms
              (mk_collected (mk_run existing seen0 enr0 c w) a h)).
Qed.
End Collector.

(** *** The two instances of the merge relation *)

Lemma fresh_contacts_nil s0 s1 : fresh_contacts s0 s1 [].
Proof.
  split_and!; try apply NoDup_nil_2; intros c Hc; by apply elem_of_nil in Hc.
Qed.

Lemma fresh_contacts_app s0 s1 s2 new1 new2 :
  s0 ⊆ s1 → s1 ⊆ s2 →
  fresh_contacts s0 s1 new1 → fresh_contacts s1 s2 new2 →
  fresh_contacts s0 s2 (new1 ++ new2).
Proof.
  intros H01 H12 (Hn1 & Hk1 & He1 & Hm1) (Hn2 & Hk2 & He2 & Hm2).
  split_and!.
  - rewrite fmap_app. apply NoDup_app. split_and!; [done| |done].
    intros k Hin1 Hin2.
    apply list_elem_of_fmap in Hin1 as (c1 & -> & Hc1).
    apply list_elem_of_fmap in Hin2 as (c2 & Heq & Hc2).
    destruct (Hk1 c1 Hc1) as [Hs1 _]. destruct (Hk2 c2 Hc2) as [_ Hs2].
    apply Hs2. by rewrite <- Heq.
  - intros c Hc. apply elem_of_app in Hc as [Hc|Hc].
    + destruct (Hk1 c Hc). split; [by apply H12|done].
    + destruct (Hk2 c Hc) as [? Hno]. split; [done|]. intros ?. by apply Hno, H01.
  - rewrite filter_app, fmap_app. apply NoDup_app. split_and!; [done| |done].
    intros k Hin1 Hin2.
    apply list_elem_of_fmap in Hin1 as (c1 & -> & Hc1).
    apply list_elem_of_fmap in Hin2 as (c2 & Heq & Hc2).
    apply list_elem_of_filter in Hc1 as [Hh1 Hc1].
    apply list_elem_of_filter in Hc2 as [Hh2 Hc2].
    destruct (Hm1 c1 Hc1 Hh1) as [Hs1 _]. destruct (Hm2 c2 Hc2 Hh2) as [_ Hs2].
    apply Hs2. by rewrite <- Heq.
  - intros c Hc Hh. apply elem_of_app in Hc as [Hc|Hc].
    + destruct (Hm1 c Hc Hh). split; [by apply H12|done].
    + destruct (Hm2 c Hc Hh) as [? Hno]. split; [done|]. intros ?. by apply Hno, H01.
Qed.

Lemma fresh_contacts_apollo s0 c :
  contact_key c ∉ s0 → source c = "Apollo.io" →
  fresh_contacts s0 ({[ contact_key c ]} ∪ s0) [c].
Proof.
  intros Hk Hsrc.
  assert (filter hunter_with_email [c] = []) as Hfil.
  { rewrite filter_cons_False; [done|]. intros [Hh _]. by rewrite Hsrc in Hh. }
  split_and!.
  - apply NoDup_singleton.
  - intros c' Hc'. apply list_elem_of_singleton in Hc' as ->. split; [set_solver|done].
  - rewrite Hfil. apply NoDup_nil_2.
  - intros c' Hc' [Hh _]. apply list_elem_of_singleton in Hc' as ->. by rewrite Hsrc in Hh.
Qed.

Lemma truthy_lower_nonempty v : truthy v = true → nonempty (lower (fmt v)) = true.
Proof. destruct v as [|[|a s]]; done. Qed.

Lemma named_or_empty v : v ≠ PNone → fmt (or_empty v) = fmt v.
Proof. destruct v as [|s]; [done|]. intros _. by rewrite or_empty_str. Qed.

Lemma fresh_contacts_hunter s0 f label e :
  named_entry e →
  (if truthy (h_value e) then lower (fmt (h_value e)) else "") ∉ s0 →
  name_key (h_first_name e) (h_last_name e) (name f) ∉ s0 →
  fresh_contacts s0
    ({[ name_key (h_first_name e) (h_last_name e) (name f) ]}
     ∪ (if nonempty (if truthy (h_value e) then lower (fmt (h_value e)) else "")
        then {[ if truthy (h_value e) then lower (fmt (h_value e)) else "" ]} ∪ s0
        else s0))
    [hunter_contact f label e].
Proof.
  intros [Hfirst Hlast].
  set (dke := if truthy (h_value e) then lower (fmt (h_value e)) else "").
  set (key := name_key (h_first_name e) (h_last_name e) (name f)).
  set (c := hunter_contact f label e).
  intros Hd Hk.
  assert (contact_key c = key) as Hckey.
  { unfold contact_key, name_key, c, key; simpl. by rewrite !named_or_empty. }
  assert (email_key c = dke) as Hekey by done.
  split_and!.
  - apply NoDup_singleton.
  - intros c' Hc'. apply list_elem_of_singleton in Hc' as ->. rewrite Hckey.
    split; [set_solver|done].
  - destruct (decide (hunter_with_email c)).
    + rewrite filter_cons_True by done. apply NoDup_singleton.
    + rewrite filter_cons_False by done. apply NoDup_nil_2.
  - intros c' Hc' [_ Hmail]. apply list_elem_of_singleton in Hc' as ->.
    rewrite Hekey. split; [|done].
    change (email c) with (h_value e) in Hmail.
    pose proof (truthy_lower_nonempty _ Hmail) as Hne.
    unfold dke. rewrite Hmail, Hne. set_solver.
Qed.

Lemma fresh_contacts_emails s0 s1 new : fresh_contacts s0 s1 new → fresh_emails s0 s1 new.
Proof. by intros (_ & _ & ? & ?). Qed.

Lemma fresh_emails_app s0 s1 s2 new1 new2 :
  s0 ⊆ s1 → s1 ⊆ s2 →
  fresh_emails s0 s1 new1 → fresh_emails s1 s2 new2 →
  fresh_emails s0 s2 (new1 ++ new2).
Proof.
  intros H01 H12 (He1 & Hm1) (He2 & Hm2). split.
  - rewrite filter_app, fmap_app. apply NoDup_app. split_and!; [done| |done].
    intros k Hin1 Hin2.
    apply list_elem_of_fmap in Hin1 as (c1 & -> & Hc1).
    apply list_elem_of_fmap in Hin2 as (c2 & Heq & Hc2).
    apply list_elem_of_filter in Hc1 as [Hh1 Hc1].
    apply list_elem_of_filter in Hc2 as [Hh2 Hc2].
    destruct (Hm1 c1 Hc1 Hh1) as [Hs1 _]. destruct (Hm2 c2 Hc2 Hh2) as [_ Hs2].
    apply Hs2. by rewrite <- Heq.
  - intros c Hc Hh. apply elem_of_app in Hc as [Hc|Hc].
    + destruct (Hm1 c Hc Hh). split; [by apply H12|done].
    + destruct (Hm2 c Hc Hh) as [? Hno]. split; [done|]. intros ?. by apply Hno, H01.
Qed.

Lemma fresh_emails_hunter s0 f label e :
  (if truthy (h_value e) then lower (fmt (h_value e)) else "") ∉ s0 →
  fresh_emails s0
    ({[ name_key (h_first_name e) (h_last_name e) (name f) ]}
     ∪ (if nonempty (if truthy (h_value e) then lower (fmt (h_value e)) else "")
        then {[ if truthy (h_value e) then lower (fmt (h_value e)) else "" ]} ∪ s0
        else s0))
    [hunter_contact f label e].
Proof.
  set (dke := if truthy (h_value e) then lower (fmt (h_value e)) else "").
  set (c := hunter_contact f label e).
  intros Hd.
  assert (email_key c = dke) as Hekey by done.
  split.
  - destruct (decide (hunter_with_email c)).
    + rewrite filter_cons_True by done. apply NoDup_singleton.
    + rewrite filter_cons_False by done. apply NoDup_nil_2.
  - intros c' Hc' [_ Hmail]. apply list_elem_of_singleton in Hc' as ->.
    rewrite Hekey. split; [|done].
    change (email c) with (h_value e) in Hmail.
    pose proof (truthy_lower_nonempty _ Hmail) as Hne.
    unfold dke. rewrite Hmail, Hne. set_solver.
Qed.

(** Whatever the services answer, the emails of the contacts appended from
    Hunter are fresh. *)
Lemma collect_emails firms a h en existing seen0 enr0 c it_only w :
  extends fresh_emails firms (mk_run existing seen0 enr0 c w)
    (final (collect firms a h en existing seen0 enr0 c it_only w)).
Proof.
  apply (collect_extends firms (λ _, True) fresh_emails).
  - intros s0 s1. apply fresh_contacts_emails, fresh_contacts_nil.
  - apply fresh_emails_app.
  - intros s0 c0 Hk Hsrc. by apply fresh_contacts_emails, fresh_contacts_apollo.
  - intros s0 f label e _ Hd _. by apply fresh_emails_hunter.
  - unfold net_ok. apply Forall_forall. intros [status b|] _; [|done].
    by apply Forall_forall.
Qed.

(** With Hunter entries that carry their names, the appended contacts are
    fresh. *)
Lemma collect_fresh firms a h en existing seen0 enr0 c it_only w :
  named_net (net w) →
  extends fresh_contacts firms (mk_run existing seen0 enr0 c w)
    (final (collect firms a h en existing seen0 enr0 c it_only w)).
Proof.
  apply (collect_extends firms named_entry fresh_contacts).
  - apply fresh_contacts_nil.
  - apply fresh_contacts_app.
  - apply fresh_contacts_apollo.
  - apply fresh_contacts_hunter.
Qed.

Lemma net_ok_True l : net_ok (λ _, True) l.
Proof.
  unfold net_ok. apply Forall_forall. intros [status b|] _; [|done].
  by apply Forall_forall.
Qed.

(** Whatever the services answer, contacts are only appended, and every
    enrichment request is for a person whose name-key was not enriched. *)
Lemma collect_grows firms a h en existing seen0 enr0 c it_only w :
  extends (λ _ _ new, from_services new) firms (mk_run existing seen0 enr0 c w)
    (final (collect firms a h en existing seen0 enr0 c it_only w)).
Proof.
  apply (collect_extends firms (λ _, True) (λ _ _ new, from_services new)).
  - intros _ _. by constructor.
  - intros _ _ _ new1 new2 _ _ H1 H2. apply Forall_app. by split.
  - intros _ c0 _ Hsrc. constructor; [by left|by constructor].
  - intros _ f label e _ _ _. constructor; [by right|by constructor].
  - apply net_ok_True.
Qed.

(* ===================================================================== *)
(** ** The collector: merging, enrichment and the cache                   *)
(* ===================================================================== *)

(** C9. The list [collect_contacts] returns is the list of existing
    contacts it was given, unchanged and in order, followed by contacts
    appended during the run, each from one of the two services. *)
Theorem existing_contacts_kept firms a h en existing seen0 enr0 c it_only w :
  ∃ new, collect_contacts firms a h en existing seen0 enr0 c it_only w
         = (existing ++ new)%list
         ∧ from_services new.
Proof.
  destruct (collect_grows firms a h en existing seen0 enr0 c it_only w)
    as (_ & _ & _ & (new & Hc & Hnew) & _).
  by exists new.
Qed.

(** C2 (amended).  The contacts appended from Hunter with an email have
    pairwise distinct lower-cased emails, none of which was in the [seen]
    set passed in, whatever the services answer.  When Hunter returns no
    null first or last name, the contacts appended during a run also have
    pairwise distinct name-keys, none of which was in that set. *)
Theorem appended_contacts_distinct firms a h en existing seen0 enr0 c it_only w :
  ∃ new, collect_contacts firms a h en existing seen0 enr0 c it_only w
         = (existing ++ new)%list
         ∧ NoDup (email_key <$> filter hunter_with_email new)
         ∧ (∀ x, x ∈ new → hunter_with_email x → email_key x ∉ seen0)
         ∧ (named_net (net w) →
            NoDup (contact_key <$> new) ∧ ∀ x, x ∈ new → contact_key x ∉ seen0).
Proof.
  destruct (collect_emails firms a h en existing seen0 enr0 c it_only w)
    as (_ & _ & _ & (new & Hc & Hne & He) & _).
  exists new. split_and!; try done.
  - intros x Hx Hh. by destruct (He x Hx Hh).
  - intros Hn.
    destruct (collect_fresh firms a h en existing seen0 enr0 c it_only w Hn)
      as (_ & _ & _ & (new' & Hc' & Hnd & Hk & _) & _).
    cbn [contacts] in Hc, Hc'. rewrite Hc in Hc'. apply app_inv_head in Hc' as <-.
    split; [done|]. intros x Hx. by destruct (Hk x Hx).
Qed.









Lemma appended_contacts_distinct_witness :
  ∃ new,
    collect_contacts CONSULTANCIES None (Some one_key_pool) true [] ∅ ∅ no_cache true
      (mk_world [Response 200 (mk_body [] None [carol; carol])] [])
    = new ∧ NoDup (contact_key <$> new).
Proof.
  destruct (appended_contacts_distinct CONSULTANCIES None (Some one_key_pool) true [] ∅ ∅
              no_cache true (mk_world [Response 200 (mk_body [] None [carol; carol])] []))
    as (new & Heq & _ & _ & Hnamed).
  destruct Hnamed as [Hnd _].
  - repeat constructor; discriminate.
  - exists new. by split.
Defined.

(** C2, as stated, fails: two people returned by Apollo under different
    names with the same mailbox are both kept. *)
Lemma shared_email_counterexample :
  ∃ c1 c2,
    collect_contacts CONSULTANCIES (Some one_key_pool) None false [] ∅ ∅ no_cache false
      (mk_world [Response 200 (mk_body [ann; bob] None [])] [])
    = [c1; c2]
    ∧ contact_key c1 ≠ contact_key c2
    ∧ truthy (email c1) = true ∧ truthy (email c2) = true
    ∧ email_key c1 = email_key c2.
Proof.
  eexists _, _. split; [vm_compute; reflexivity|].
  split_and!; [by vm_compute|reflexivity..].
Qed.



Lemma apollo_person_cache en f r p x : cache (apollo_person en f (r, p) x).1 = cache r.
Proof.
  by destruct (apollo_person_cases en f r p x)
    as [[_ ->]|(_ & c & enr' & p' & w' & -> & _)].
Qed.

Lemma apollo_people_cache en f l r p :
  cache (foldl (apollo_person en f) (r, p) l).1 = cache r.
Proof.
  revert r p. induction l as [|x l IH]; intros r p; cbn [foldl]; [done|].
  pose proof (apollo_person_cache en f r p x) as Hx.
  destruct (apollo_person en f (r, p) x) as [r1 p1]. by rewrite IH.
Qed.

(** When the narrow search runs, its identifier ends up done exactly when
    the pool is not exhausted after the people were merged, or people came
    back. *)
Lemma apollo_titles_marks en f r p :
  let key := "apollo_search|" +:+ domain f +:+ "|titles" in
  SearchCache.is_done (cache r) key = false →
  let '(b, p1, w1) :=
    ApolloClient.search_people APOLLO_TITLES APOLLO_LOCATIONS (domain f) 10 p (outside r) in
  let p2 := (foldl (apollo_person en f) (set_outside r w1, p1) (people b)).2 in
  SearchCache.is_done (cache (apollo_titles en f (r, p)).1) key
  = negb (KeyPool.all_exhausted p2) || negb (bool_decide (people b = [])).
Proof.
  intros key Hnot. unfold apollo_titles. fold key. rewrite Hnot.
  destruct (ApolloClient.search_people _ _ _ _ p (outside r)) as [[b p1] w1].
  pose proof (apollo_people_cache en f (people b) (set_outside r w1) p1) as Hc.
  destruct (foldl _ _ (people b)) as [r2 p2]. simpl in Hc. cbn [snd fst].
  destruct (negb (KeyPool.all_exhausted p2) || negb (bool_decide (people b = []))).
  - apply is_done_mark_done. by left.
  - cbn [pause set_outside cache]. by rewrite Hc.
Qed.

(** When the broad search runs, its identifier ends up done exactly when
    the pool is not exhausted after the people were merged, whatever came
    back. *)
Lemma apollo_broad_marks en f r p :
  let key := "apollo_search|" +:+ domain f +:+ "|broad" in
  SearchCache.is_done (cache r) key = false → KeyPool.all_exhausted p = false →
  let '(b, p1, w1) :=
    ApolloClient.search_people ["Talent Acquisition"; "Recruiter"; "Staffing"]
      APOLLO_LOCATIONS (domain f) 5 p (outside r) in
  let p2 := (foldl (apollo_person en f) (set_outside r w1, p1) (people b)).2 in
  SearchCache.is_done (cache (apollo_broad en f (r, p)).1) key
  = negb (KeyPool.all_exhausted p2).
Proof.
  intros key Hnot Hpool. unfold apollo_broad. fold key. rewrite Hnot, Hpool. cbn [negb].
  destruct (ApolloClient.search_people _ _ _ _ p (outside r)) as [[b p1] w1].
  pose proof (apollo_people_cache en f (people b) (set_outside r w1) p1) as Hc.
  destruct (foldl _ _ (people b)) as [r2 p2]. simpl in Hc. cbn [snd fst].
  destruct (negb (KeyPool.all_exhausted p2)).
  - apply is_done_mark_done. by left.
  - cbn [pause set_outside cache]. by rewrite Hc.
Qed.

(** C1. The broad Apollo search is not marked done when it returned a
    person and the pool was exhausted by the enrichment that followed; the
    narrow search, in the same situation, is marked done. *)
Theorem broad_search_left_unmarked :
  let titles_done := SearchCache.mk {[ "apollo_search|accenture.com|titles" ]} None in
  let broad := collect CONSULTANCIES (Some one_key_pool) None true [] ∅ ∅ titles_done false
                 jane_then_429 in
  let narrow := collect CONSULTANCIES (Some one_key_pool) None true [] ∅ ∅ no_cache false
                  jane_then_429 in
  (* the broad search returned Jane, she was merged, the pool ended exhausted,
     and the search is not marked done *)
  length (contacts (final broad)) = 1
  ∧ KeyPool.all_exhausted <$> apollo_pool broad = Some true
  ∧ SearchCache.is_done (cache (final broad)) "apollo_search|accenture.com|broad" = false
  (* the narrow search in the same situation is marked done *)
  ∧ length (contacts (final narrow)) = 1
  ∧ KeyPool.all_exhausted <$> apollo_pool narrow = Some true
  ∧ SearchCache.is_done (cache (final narrow)) "apollo_search|accenture.com|titles" = true.
Proof. split_and!; vm_compute; reflexivity. Qed.

(* ===================================================================== *)
(** ** Scenarios                                                          *)
(* ===================================================================== *)

(** A pool [K1; K2] whose first key is answered with 429: the pool rotates
    to the second key, and the same request goes out again with it after a
    pause. *)
Example rotation_on_429 :
  let r := HunterDomainSearch "accenture.com" "it" None 10 in
  let b := mk_body [] None [carol] in
  let '(res, p', w') :=
    HunterClient._request_with_failover r (KeyPool.mk "Hunter" ["K1"; "K2"] ∅ 0)
      (mk_world [Response 429 empty_body; Response 200 b] []) in
  res = b
  ∧ trace w' = [EvHttp r (Some "K1"); EvSleep 1; EvHttp r (Some "K2")]
  ∧ elements (KeyPool.exhausted p') = [0]
  ∧ KeyPool._current_idx p' = 1.
Proof. vm_compute. by split_and!. Qed.

(** A search whose identifier is in the cache is skipped: no request goes
    out for it. *)
Example cached_search_skipped :
  let cached := SearchCache.mk {[ "hunter|accenture.com|it" ]} None in
  let st := collect [accenture] None (Some (KeyPool.mk "Hunter" ["K1"] ∅ 0)) true [] ∅ ∅
              cached true (mk_world [Response 200 (mk_body [] None [carol])] []) in
  trace (outside (final st)) = [] ∧ contacts (final st) = [].
Proof. vm_compute. by split. Qed.

(** Prior output holds Jane Doe at Accenture with an email; Apollo returns
    her again without one: her name-key is loaded into [enriched], and the
    run issues the two searches and no enrichment request. *)
Example jane_not_enriched_again :
  let '(existing, seen0, enriched0) :=
    load_existing_contacts
      (Sheet [[PStr "Accenture"; PStr "Jane"; PStr "Doe"; PStr "jane@accenture.com";
               PStr "Recruiter"; PNone; PNone; PStr "Apollo.io"; PNone]]) in
  let st := collect [accenture] (Some one_key_pool) None true existing seen0 enriched0
              no_cache false
              (mk_world [Response 200 (mk_body [jane] None []);
                         Response 200 (mk_body [jane] None [])] []) in
  elements enriched0 = ["jane|doe|accenture"]
  ∧ http_count (trace (outside (final st))) = 2
  ∧ Forall (λ e, match e with
                 | EvHttp (ApolloEnrich _ _ _) _ => False
                 | _ => True
                 end) (trace (outside (final st)))
  ∧ contacts (final st) = existing.
Proof.
  vm_compute. split_and!; [done|done| |done]. repeat constructor.
Qed.
